(** * pileup/snp/row.go: the pileupRow record codec

    A shallow embedding of [marshalPileupRow], [unmarshalPileupRow] and
    [cutAndAdvance], with the Go features they rely on written out:

    - run-time panics (slice expressions and indexing out of range) are the
      [Panic] outcome of the [result] type;
    - a [[]byte] value is a descriptor (array, offset, len, cap) into a store of
      byte arrays, so that sub-slices alias the buffer they were cut from;
    - [uint8], [uint16] and [uint32] values are integers of [Z] with the
      wrap-around of conversions written out ([u8], [u16], [u32]);
    - [int] is the 64-bit [int] of Go: sizes of objects that fit in memory do
      not reach its bounds, so it is [Z] without wrap-around. *)

From Stdlib Require Import ZArith List Lia Bool.
Import ListNotations.
Local Open Scope Z_scope.

(** ** Outcomes of a call: a value, or a run-time panic *)

Inductive result (A : Type) : Type :=
| Ok (a : A)
| Panic.
Arguments Ok {A} a.
Arguments Panic {A}.

Definition bind {A B : Type} (m : result A) (f : A -> result B) : result B :=
  match m with
  | Ok a => f a
  | Panic => Panic
  end.

Notation "x <- m ;; k" := (bind m (fun x => k))
  (at level 61, m at next level, right associativity).
Notation "' p <- m ;; k" := (bind m (fun p => k))
  (at level 61, p pattern, m at next level, right associativity).

(** Go's [error] interface; [nilError] is the nil interface value. *)
Inductive error : Type :=
| nilError
| someError (code : nat).

(** ** Fixed-width unsigned integers *)

Definition u8 (x : Z) : Z := x mod 2 ^ 8.
Definition u16 (x : Z) : Z := x mod 2 ^ 16.
Definition u32 (x : Z) : Z := x mod 2 ^ 32.

Definition isU8 (x : Z) : Prop := 0 <= x < 2 ^ 8.
Definition isU16 (x : Z) : Prop := 0 <= x < 2 ^ 16.
Definition isU32 (x : Z) : Prop := 0 <= x < 2 ^ 32.

(** ** Byte slices over a store of arrays *)

(** The store: every byte array allocated so far, by allocation index. *)
Definition mem : Type := list (list Z).

(** A [[]byte] value: the array it points into, the position of its element 0
    in that array, its length and its capacity. *)
Record slice : Type := mkSlice {
  s_arr : nat;
  s_off : Z;
  s_len : Z;
  s_cap : Z
}.

(** [s[lo:hi]].  For a slice the upper bound is checked against the capacity,
    not the length. *)
Definition reslice (s : slice) (lo hi : Z) : result slice :=
  if (0 <=? lo) && (lo <=? hi) && (hi <=? s_cap s)
  then Ok {| s_arr := s_arr s; s_off := s_off s + lo;
             s_len := hi - lo; s_cap := s_cap s - lo |}
  else Panic.

(** [s[lo:]]: the upper bound defaults to [len(s)]. *)
Definition resliceFrom (s : slice) (lo : Z) : result slice :=
  reslice s lo (s_len s).

(** [s[:hi]]. *)
Definition resliceTo (s : slice) (hi : Z) : result slice :=
  reslice s 0 hi.

Fixpoint updNth {A : Type} (n : nat) (x : A) (l : list A) : list A :=
  match l, n with
  | [], _ => []
  | _ :: l', O => x :: l'
  | y :: l', S n' => y :: updNth n' x l'
  end.

Fixpoint modNth {A : Type} (n : nat) (f : A -> A) (l : list A) : list A :=
  match l, n with
  | [], _ => []
  | y :: l', O => f y :: l'
  | y :: l', S n' => y :: modNth n' f l'
  end.

(** [s[i]] as a value. *)
Definition loadByte (m : mem) (s : slice) (i : Z) : result Z :=
  if (0 <=? i) && (i <? s_len s) then
    match nth_error m (s_arr s) with
    | Some a =>
        match nth_error a (Z.to_nat (s_off s + i)) with
        | Some v => Ok v
        | None => Panic
        end
    | None => Panic
    end
  else Panic.

(** [s[i] = v]. *)
Definition storeByteMem (m : mem) (s : slice) (i : Z) (v : Z) : result mem :=
  if (0 <=? i) && (i <? s_len s) then
    match nth_error m (s_arr s) with
    | Some a =>
        if (Z.to_nat (s_off s + i) <? length a)%nat
        then Ok (updNth (s_arr s) (updNth (Z.to_nat (s_off s + i)) v a) m)
        else Panic
    | None => Panic
    end
  else Panic.

(** [make([]byte, n)]: a fresh zeroed array, with len and cap [n]. *)
Definition makeBytes (m : mem) (n : Z) : mem * slice :=
  (m ++ [repeat 0 (Z.to_nat n)],
   {| s_arr := length m; s_off := 0; s_len := n; s_cap := n |}).

(** The elements [s[0]], ..., [s[len(s)-1]] of a slice. *)
Definition contents (m : mem) (s : slice) : list Z :=
  firstn (Z.to_nat (s_len s))
         (skipn (Z.to_nat (s_off s)) (nth (s_arr s) m [])).

(** ** encoding/binary: [binary.LittleEndian] *)

Module LittleEndian.

(** [Uint16(b)]: [_ = b[1]; uint16(b[0]) | uint16(b[1])<<8]. *)
Definition Uint16 (m : mem) (b : slice) : result Z :=
  _ <- loadByte m b 1 ;;
  b0 <- loadByte m b 0 ;;
  b1 <- loadByte m b 1 ;;
  Ok (Z.lor b0 (u16 (Z.shiftl b1 8))).

(** [Uint32(b)]: [_ = b[3]; uint32(b[0]) | uint32(b[1])<<8 |
    uint32(b[2])<<16 | uint32(b[3])<<24]. *)
Definition Uint32 (m : mem) (b : slice) : result Z :=
  _ <- loadByte m b 3 ;;
  b0 <- loadByte m b 0 ;;
  b1 <- loadByte m b 1 ;;
  b2 <- loadByte m b 2 ;;
  b3 <- loadByte m b 3 ;;
  Ok (Z.lor (Z.lor (Z.lor b0 (u32 (Z.shiftl b1 8))) (u32 (Z.shiftl b2 16)))
            (u32 (Z.shiftl b3 24))).

(** [PutUint16(b, v)]: [_ = b[1]; b[0] = byte(v); b[1] = byte(v >> 8)]. *)
Definition PutUint16 (m : mem) (b : slice) (v : Z) : result mem :=
  _ <- loadByte m b 1 ;;
  m <- storeByteMem m b 0 (u8 v) ;;
  storeByteMem m b 1 (u8 (Z.shiftr v 8)).

(** [PutUint32(b, v)]: [_ = b[3]; b[0] = byte(v); b[1] = byte(v >> 8);
    b[2] = byte(v >> 16); b[3] = byte(v >> 24)]. *)
Definition PutUint32 (m : mem) (b : slice) (v : Z) : result mem :=
  _ <- loadByte m b 3 ;;
  m <- storeByteMem m b 0 (u8 v) ;;
  m <- storeByteMem m b 1 (u8 (Z.shiftr v 8)) ;;
  m <- storeByteMem m b 2 (u8 (Z.shiftr v 16)) ;;
  storeByteMem m b 3 (u8 (Z.shiftr v 24)).

End LittleEndian.

(** ** package pileup: the base enumeration *)

(** Modelled from the spec: package [pileup] is not among the sources.  The
    spec gives a closed set of five base categories in the order A, C, G, T, X
    used for [counts], and four canonical bases A, C, G, T used for
    [perRead]. *)
Module pileup.
Definition BaseA : nat := 0.
Definition BaseC : nat := 1.
Definition BaseG : nat := 2.
Definition BaseT : nat := 3.
Definition BaseX : nat := 4.
Definition NBase : nat := 4.
Definition NBaseEnum : nat := 5.
End pileup.

(** ** The data model of row.go *)

Record perReadFeatures : Type := mkFeatures {
  dist5p : Z;   (* uint16 *)
  fraglen : Z;  (* uint16 *)
  qual : Z;     (* byte *)
  strand : Z    (* byte *)
}.

Definition zeroFeatures : perReadFeatures := mkFeatures 0 0 0 0.

(** A [[]perReadFeatures] value: the nil slice, or a slice with elements. *)
Inductive featureSlice : Type :=
| nilFeatures
| features (l : list perReadFeatures).

Definition elems (s : featureSlice) : list perReadFeatures :=
  match s with
  | nilFeatures => []
  | features l => l
  end.

(** [len(s)], an [int]. *)
Definition lenFeatures (s : featureSlice) : Z := Z.of_nat (length (elems s)).

Definition fieldCounts : Z := Z.shiftl 1 0.
Definition fieldPerReadA : Z := Z.shiftl 1 1.
Definition fieldPerReadC : Z := Z.shiftl 1 2.
Definition fieldPerReadG : Z := Z.shiftl 1 3.
Definition fieldPerReadT : Z := Z.shiftl 1 4.
Definition fieldPerReadAny : Z :=
  Z.lor (Z.lor (Z.lor fieldPerReadA fieldPerReadC) fieldPerReadG) fieldPerReadT.

Record pileupPayload : Type := mkPayload {
  depth : Z;                       (* uint32 *)
  counts : list (Z * Z);           (* [pileup.NBaseEnum][2]uint32 *)
  perRead : list featureSlice      (* [pileup.NBase][]perReadFeatures *)
}.

Record pileupRow : Type := mkRow {
  fieldsPresent : Z;  (* uint32 *)
  refID : Z;          (* uint32 *)
  pos : Z;            (* uint32 *)
  payload : pileupPayload
}.

(** The zero value of [pileupRow]. *)
Definition zeroPayload : pileupPayload :=
  mkPayload 0 (repeat (0, 0) pileup.NBaseEnum) (repeat nilFeatures pileup.NBase).
Definition zeroRow : pileupRow := mkRow 0 0 0 zeroPayload.

(** [counts[b][0]] and [counts[b][1]]. *)
Definition count0 (p : pileupPayload) (b : nat) : Z := fst (nth b (counts p) (0, 0)).
Definition count1 (p : pileupPayload) (b : nat) : Z := snd (nth b (counts p) (0, 0)).

(** [perRead[b]]. *)
Definition perReadAt (p : pileupPayload) (b : nat) : featureSlice :=
  nth b (perRead p) nilFeatures.

(** Field assignments. *)
Definition setDepth (v : Z) (pr : pileupRow) : pileupRow :=
  mkRow (fieldsPresent pr) (refID pr) (pos pr)
        (mkPayload v (counts (payload pr)) (perRead (payload pr))).
Definition setCount0 (b : nat) (v : Z) (pr : pileupRow) : pileupRow :=
  mkRow (fieldsPresent pr) (refID pr) (pos pr)
        (mkPayload (depth (payload pr))
                   (modNth b (fun c => (v, snd c)) (counts (payload pr)))
                   (perRead (payload pr))).
Definition setCount1 (b : nat) (v : Z) (pr : pileupRow) : pileupRow :=
  mkRow (fieldsPresent pr) (refID pr) (pos pr)
        (mkPayload (depth (payload pr))
                   (modNth b (fun c => (fst c, v)) (counts (payload pr)))
                   (perRead (payload pr))).
Definition setPerRead (b : nat) (s : featureSlice) (pr : pileupRow) : pileupRow :=
  mkRow (fieldsPresent pr) (refID pr) (pos pr)
        (mkPayload (depth (payload pr)) (counts (payload pr))
                   (updNth b s (perRead (payload pr)))).
Definition setFieldsPresent (v : Z) (pr : pileupRow) : pileupRow :=
  mkRow v (refID pr) (pos pr) (payload pr).

Definition setDist5p (v : Z) (f : perReadFeatures) : perReadFeatures :=
  mkFeatures v (fraglen f) (qual f) (strand f).
Definition setFraglen (v : Z) (f : perReadFeatures) : perReadFeatures :=
  mkFeatures (dist5p f) v (qual f) (strand f).
Definition setQual (v : Z) (f : perReadFeatures) : perReadFeatures :=
  mkFeatures (dist5p f) (fraglen f) v (strand f).
Definition setStrand (v : Z) (f : perReadFeatures) : perReadFeatures :=
  mkFeatures (dist5p f) (fraglen f) (qual f) v.

(** [fieldsPresent&mask != 0]. *)
Definition hasField (fieldsPresent mask : Z) : bool :=
  negb (Z.land fieldsPresent mask =? 0).

(** [fieldPerReadA<<uint(b)], at type [uint32]. *)
Definition perReadBit (b : nat) : Z := u32 (Z.shiftl fieldPerReadA (Z.of_nat b)).

(** ** The state a call of the encoder works on *)

(** The row behind the pointer [p], and the byte arrays. *)
Record heap : Type := mkHeap {
  h_row : pileupRow;
  h_mem : mem
}.

Definition storeByte (h : heap) (s : slice) (i : Z) (v : Z) : result heap :=
  m <- storeByteMem (h_mem h) s i v ;;
  Ok (mkHeap (h_row h) m).

Definition PutUint16 (h : heap) (b : slice) (v : Z) : result heap :=
  m <- LittleEndian.PutUint16 (h_mem h) b v ;;
  Ok (mkHeap (h_row h) m).

Definition PutUint32 (h : heap) (b : slice) (v : Z) : result heap :=
  m <- LittleEndian.PutUint32 (h_mem h) b v ;;
  Ok (mkHeap (h_row h) m).

(** ** cutAndAdvance *)

(** [cutAndAdvance(&offset, s, pieceLen)]: the new value of [*offset] and the
    piece [s[offset:offset+pieceLen]]. *)
Definition cutAndAdvance (offset : Z) (s : slice) (pieceLen : Z)
  : result (Z * slice) :=
  tmpSlice <- resliceFrom s offset ;;
  let offset := offset + pieceLen in
  piece <- resliceTo tmpSlice pieceLen ;;
  Ok (offset, piece).

(** ** marshalPileupRow *)

(** Lines 118-130: the length computed up-front. *)
Definition bytesReqOf (pr : pileupRow) : Z :=
  let fieldsPresent := fieldsPresent pr in
  let bytesReq := 16 in
  let bytesReq := if hasField fieldsPresent fieldCounts then bytesReq + 40 else bytesReq in
  if hasField fieldsPresent fieldPerReadAny then
    fold_left
      (fun bytesReq b =>
         if hasField fieldsPresent (perReadBit b)
         then bytesReq + (4 + 6 * lenFeatures (perReadAt (payload pr) b))
         else bytesReq)
      (seq 0 pileup.NBase) bytesReq
  else bytesReq.

(** Lines 137-141: the fixed 16-byte header. *)
Definition marshalHeader (h : heap) (t : slice) (offset : Z) : result (heap * Z) :=
  '(offset, tStart) <- cutAndAdvance offset t 16 ;;
  b <- reslice tStart 0 4 ;;
  h <- PutUint32 h b (fieldsPresent (h_row h)) ;;
  b <- reslice tStart 4 8 ;;
  h <- PutUint32 h b (refID (h_row h)) ;;
  b <- reslice tStart 8 12 ;;
  h <- PutUint32 h b (pos (h_row h)) ;;
  b <- reslice tStart 12 16 ;;
  h <- PutUint32 h b (depth (payload (h_row h))) ;;
  Ok (h, offset).

(** Lines 143-157: the 40-byte block of counts. *)
Definition marshalCounts (h : heap) (t : slice) (offset : Z) : result (heap * Z) :=
  '(offset, tCounts) <- cutAndAdvance offset t 40 ;;
  b <- resliceTo tCounts 4 ;;
  h <- PutUint32 h b (count0 (payload (h_row h)) pileup.BaseA) ;;
  b <- reslice tCounts 4 8 ;;
  h <- PutUint32 h b (count1 (payload (h_row h)) pileup.BaseA) ;;
  b <- reslice tCounts 8 12 ;;
  h <- PutUint32 h b (count0 (payload (h_row h)) pileup.BaseC) ;;
  b <- reslice tCounts 12 16 ;;
  h <- PutUint32 h b (count1 (payload (h_row h)) pileup.BaseC) ;;
  b <- reslice tCounts 16 20 ;;
  h <- PutUint32 h b (count0 (payload (h_row h)) pileup.BaseG) ;;
  b <- reslice tCounts 20 24 ;;
  h <- PutUint32 h b (count1 (payload (h_row h)) pileup.BaseG) ;;
  b <- reslice tCounts 24 28 ;;
  h <- PutUint32 h b (count0 (payload (h_row h)) pileup.BaseT) ;;
  b <- reslice tCounts 28 32 ;;
  h <- PutUint32 h b (count1 (payload (h_row h)) pileup.BaseT) ;;
  b <- reslice tCounts 32 36 ;;
  h <- PutUint32 h b (count0 (payload (h_row h)) pileup.BaseX) ;;
  b <- reslice tCounts 36 40 ;;
  h <- PutUint32 h b (count1 (payload (h_row h)) pileup.BaseX) ;;
  Ok (h, offset).

(** Lines 164-170: [for _, src := range pr.payload.perRead[b]]. *)
Fixpoint marshalFeatures (h : heap) (t : slice) (offset : Z)
    (l : list perReadFeatures) : result (heap * Z) :=
  match l with
  | [] => Ok (h, offset)
  | src :: l' =>
      '(offset, dst) <- cutAndAdvance offset t 6 ;;
      b <- resliceTo dst 2 ;;
      h <- PutUint16 h b (dist5p src) ;;
      b <- reslice dst 2 4 ;;
      h <- PutUint16 h b (fraglen src) ;;
      h <- storeByte h dst 4 (qual src) ;;
      h <- storeByte h dst 5 (strand src) ;;
      marshalFeatures h t offset l'
  end.

(** Lines 160-172: [for b := range pr.payload.perRead], over the indices [bs]
    still to visit. *)
Fixpoint marshalPerRead (h : heap) (t : slice) (fieldsPresent : Z) (offset : Z)
    (bs : list nat) : result (heap * Z) :=
  match bs with
  | [] => Ok (h, offset)
  | b :: bs' =>
      if hasField fieldsPresent (perReadBit b) then
        '(offset, lenSlice) <- cutAndAdvance offset t 4 ;;
        h <- PutUint32 h lenSlice (u32 (lenFeatures (perReadAt (payload (h_row h)) b))) ;;
        '(h, offset) <- marshalFeatures h t offset (elems (perReadAt (payload (h_row h)) b)) ;;
        marshalPerRead h t fieldsPresent offset bs'
      else marshalPerRead h t fieldsPresent offset bs'
  end.

(** Lines 136-174: the writes into the chosen buffer [t], and the return. *)
Definition marshalInto (h : heap) (t : slice) (fieldsPresent : Z)
  : result (heap * (slice * error)) :=
  let offset := 0 in
  '(h, offset) <- marshalHeader h t offset ;;
  '(h, offset) <-
    (if hasField fieldsPresent fieldCounts
     then marshalCounts h t offset
     else Ok (h, offset)) ;;
  '(h, offset) <-
    (if hasField fieldsPresent fieldPerReadAny
     then marshalPerRead h t fieldsPresent offset (seq 0 pileup.NBase)
     else Ok (h, offset)) ;;
  Ok (h, (t, nilError)).

(** [marshalPileupRow(scratch, p)], run on the heap that holds the row [*p]
    and the array of [scratch].  It returns the heap after the call and the
    two results of the Go function. *)
Definition marshalPileupRow (h : heap) (scratch : slice)
  : result (heap * (slice * error)) :=
  let fieldsPresent := fieldsPresent (h_row h) in
  let bytesReq := bytesReqOf (h_row h) in
  let t := scratch in
  let '(h, t) :=
    if s_len t <? bytesReq
    then let '(m, t) := makeBytes (h_mem h) bytesReq in (mkHeap (h_row h) m, t)
    else (h, t) in
  marshalInto h t fieldsPresent.

(** ** unmarshalPileupRow *)

(** Lines 216-222: [for i := range newFeatures], with [k] iterations left. *)
Fixpoint unmarshalFeatures (m : mem) (in_ : slice) (k : nat) (i : nat)
    (offset : Z) (newFeatures : list perReadFeatures)
  : result (Z * list perReadFeatures) :=
  match k with
  | O => Ok (offset, newFeatures)
  | S k' =>
      '(offset, src) <- cutAndAdvance offset in_ 6 ;;
      b <- resliceTo src 2 ;;
      v <- LittleEndian.Uint16 m b ;;
      let newFeatures := modNth i (setDist5p v) newFeatures in
      b <- reslice src 2 4 ;;
      v <- LittleEndian.Uint16 m b ;;
      let newFeatures := modNth i (setFraglen v) newFeatures in
      v <- loadByte m src 4 ;;
      let newFeatures := modNth i (setQual v) newFeatures in
      v <- loadByte m src 5 ;;
      let newFeatures := modNth i (setStrand v) newFeatures in
      unmarshalFeatures m in_ k' (S i) offset newFeatures
  end.

(** Lines 202-224: [for b := range pr.payload.perRead].  [newFeatures] and
    [pr.payload.perRead[b]] are the same slice; the row receives it filled. *)
Fixpoint unmarshalPerRead (m : mem) (in_ : slice) (pr : pileupRow) (offset : Z)
    (bs : list nat) : result (pileupRow * Z) :=
  match bs with
  | [] => Ok (pr, offset)
  | b :: bs' =>
      if hasField (fieldsPresent pr) (perReadBit b) then
        '(offset, lenSlice) <- cutAndAdvance offset in_ 4 ;;
        curLen <- LittleEndian.Uint32 m lenSlice ;;
        let newFeatures := repeat zeroFeatures (Z.to_nat curLen) in
        '(offset, newFeatures) <-
          unmarshalFeatures m in_ (length newFeatures) 0 offset newFeatures ;;
        let pr := setPerRead b (features newFeatures) pr in
        unmarshalPerRead m in_ pr offset bs'
      else unmarshalPerRead m in_ pr offset bs'
  end.

(** Lines 189-199. *)
Definition unmarshalCounts (m : mem) (in_ : slice) (pr : pileupRow) (offset : Z)
  : result (pileupRow * Z) :=
  '(offset, inCounts) <- cutAndAdvance offset in_ 40 ;;
  b <- reslice inCounts 0 4 ;;
  v <- LittleEndian.Uint32 m b ;;
  let pr := setCount0 pileup.BaseA v pr in
  b <- reslice inCounts 4 8 ;;
  v <- LittleEndian.Uint32 m b ;;
  let pr := setCount1 pileup.BaseA v pr in
  b <- reslice inCounts 8 12 ;;
  v <- LittleEndian.Uint32 m b ;;
  let pr := setCount0 pileup.BaseC v pr in
  b <- reslice inCounts 12 16 ;;
  v <- LittleEndian.Uint32 m b ;;
  let pr := setCount1 pileup.BaseC v pr in
  b <- reslice inCounts 16 20 ;;
  v <- LittleEndian.Uint32 m b ;;
  let pr := setCount0 pileup.BaseG v pr in
  b <- reslice inCounts 20 24 ;;
  v <- LittleEndian.Uint32 m b ;;
  let pr := setCount1 pileup.BaseG v pr in
  b <- reslice inCounts 24 28 ;;
  v <- LittleEndian.Uint32 m b ;;
  let pr := setCount0 pileup.BaseT v pr in
  b <- reslice inCounts 28 32 ;;
  v <- LittleEndian.Uint32 m b ;;
  let pr := setCount1 pileup.BaseT v pr in
  b <- reslice inCounts 32 36 ;;
  v <- LittleEndian.Uint32 m b ;;
  let pr := setCount0 pileup.BaseX v pr in
  b <- reslice inCounts 36 40 ;;
  v <- LittleEndian.Uint32 m b ;;
  let pr := setCount1 pileup.BaseX v pr in
  Ok (pr, offset).

(** Lines 180-187: the header, into a new row whose payload is zero. *)
Definition unmarshalHeader (m : mem) (in_ : slice) (offset : Z)
  : result (pileupRow * Z) :=
  '(offset, inStart) <- cutAndAdvance offset in_ 16 ;;
  b <- resliceTo inStart 4 ;;
  vFieldsPresent <- LittleEndian.Uint32 m b ;;
  b <- reslice inStart 4 8 ;;
  vRefID <- LittleEndian.Uint32 m b ;;
  b <- reslice inStart 8 12 ;;
  vPos <- LittleEndian.Uint32 m b ;;
  let pr := mkRow vFieldsPresent vRefID vPos zeroPayload in
  b <- reslice inStart 12 16 ;;
  v <- LittleEndian.Uint32 m b ;;
  let pr := setDepth v pr in
  Ok (pr, offset).

(** [unmarshalPileupRow(in)] on the store that holds the array of [in]. *)
Definition unmarshalPileupRow (m : mem) (in_ : slice)
  : result (pileupRow * error) :=
  let offset := 0 in
  '(pr, offset) <- unmarshalHeader m in_ offset ;;
  '(pr, offset) <-
    (if hasField (fieldsPresent pr) fieldCounts
     then unmarshalCounts m in_ pr offset
     else Ok (pr, offset)) ;;
  '(pr, offset) <-
    (if hasField (fieldsPresent pr) fieldPerReadAny
     then unmarshalPerRead m in_ pr offset (seq 0 pileup.NBase)
     else Ok (pr, offset)) ;;
  Ok (pr, nilError).

(** ** Callers' view: byte buffers by value *)

(** A [[]byte] held by a caller: its [len] elements, and the elements of its
    array between [len] and [cap]. *)
Record bytes : Type := mkBytes {
  vis : list Z;
  hid : list Z
}.

Definition nilBytes : bytes := mkBytes [] [].

Definition bytesArray (b : bytes) : list Z := vis b ++ hid b.

Definition bytesSlice (b : bytes) : slice :=
  {| s_arr := 0; s_off := 0;
     s_len := Z.of_nat (length (vis b));
     s_cap := Z.of_nat (length (bytesArray b)) |}.

(** The heap at a call [marshalPileupRow(scratch, &pr)]. *)
Definition callHeap (pr : pileupRow) (scratch : bytes) : heap :=
  mkHeap pr [bytesArray scratch].

Definition marshal (scratch : bytes) (pr : pileupRow)
  : result (heap * (slice * error)) :=
  marshalPileupRow (callHeap pr scratch) (bytesSlice scratch).

Definition unmarshal (input : bytes) : result (pileupRow * error) :=
  unmarshalPileupRow [bytesArray input] (bytesSlice input).

(** [unmarshalPileupRow(marshalPileupRow(scratch, &pr))]. *)
Definition roundTrip (scratch : bytes) (pr : pileupRow)
  : result (pileupRow * error) :=
  '(h, (t, _)) <- marshal scratch pr ;;
  unmarshalPileupRow (h_mem h) t.

(** The bytes a call returns. *)
Definition marshalBytes (scratch : bytes) (pr : pileupRow) : result (list Z) :=
  '(h, (t, _)) <- marshal scratch pr ;;
  Ok (contents (h_mem h) t).

(** ** The wire format, as the specification's table gives it *)

Definition le16 (v : Z) : list Z := [u8 v; u8 (Z.shiftr v 8)].

Definition le32 (v : Z) : list Z :=
  [u8 v; u8 (Z.shiftr v 8); u8 (Z.shiftr v 16); u8 (Z.shiftr v 24)].

(** uint16 dist5p, uint16 fraglen, uint8 qual, uint8 strand. *)
Definition wireFeature (f : perReadFeatures) : list Z :=
  [u8 (dist5p f); u8 (Z.shiftr (dist5p f) 8);
   u8 (fraglen f); u8 (Z.shiftr (fraglen f) 8);
   qual f; strand f].

Definition wireFeatures (l : list perReadFeatures) : list Z :=
  flat_map wireFeature l.

(** Offsets 0, 4, 8, 12: fieldsPresent, refID, pos, depth. *)
Definition wireHeader (pr : pileupRow) : list Z :=
  le32 (fieldsPresent pr) ++ le32 (refID pr) ++ le32 (pos pr)
    ++ le32 (depth (payload pr)).

(** 10 x uint32 in the order A-fwd, A-rev, C-fwd, C-rev, ..., X-fwd, X-rev. *)
Definition wireCounts (pr : pileupRow) : list Z :=
  le32 (count0 (payload pr) pileup.BaseA) ++ le32 (count1 (payload pr) pileup.BaseA)
    ++ le32 (count0 (payload pr) pileup.BaseC) ++ le32 (count1 (payload pr) pileup.BaseC)
    ++ le32 (count0 (payload pr) pileup.BaseG) ++ le32 (count1 (payload pr) pileup.BaseG)
    ++ le32 (count0 (payload pr) pileup.BaseT) ++ le32 (count1 (payload pr) pileup.BaseT)
    ++ le32 (count0 (payload pr) pileup.BaseX) ++ le32 (count1 (payload pr) pileup.BaseX).

(** uint32 N, then N records, iff the bit of base [b] is set. *)
Definition wirePerRead (pr : pileupRow) (b : nat) : list Z :=
  if hasField (fieldsPresent pr) (perReadBit b)
  then le32 (u32 (lenFeatures (perReadAt (payload pr) b)))
         ++ wireFeatures (elems (perReadAt (payload pr) b))
  else [].

Definition wireFormat (pr : pileupRow) : list Z :=
  wireHeader pr
    ++ (if hasField (fieldsPresent pr) fieldCounts then wireCounts pr else [])
    ++ flat_map (wirePerRead pr) (seq 0 pileup.NBase).

(** The length formula of the specification:
    16 + 40.[Counts] + sum over A, C, G, T of (4 + 6.len).[bit of the base]. *)
Definition specLength (pr : pileupRow) : Z :=
  16 + (if hasField (fieldsPresent pr) fieldCounts then 40 else 0)
  + fold_right Z.add 0
      (map (fun b => if hasField (fieldsPresent pr) (perReadBit b)
                     then 4 + 6 * lenFeatures (perReadAt (payload pr) b)
                     else 0)
           (seq 0 pileup.NBase)).

(** ** Values of the Go types *)

Definition wfFeatures (f : perReadFeatures) : Prop :=
  isU16 (dist5p f) /\ isU16 (fraglen f) /\ isU8 (qual f) /\ isU8 (strand f).

(** The fields of a [pileupRow] are in the ranges of their types, and the two
    arrays have their declared lengths. *)
Record wfRow (pr : pileupRow) : Prop := mkWfRow {
  wf_fieldsPresent : isU32 (fieldsPresent pr);
  wf_refID : isU32 (refID pr);
  wf_pos : isU32 (pos pr);
  wf_depth : isU32 (depth (payload pr));
  wf_counts_len : length (counts (payload pr)) = pileup.NBaseEnum;
  wf_counts : Forall (fun c => isU32 (fst c) /\ isU32 (snd c)) (counts (payload pr));
  wf_perRead_len : length (perRead (payload pr)) = pileup.NBase;
  wf_perRead : Forall (fun s => Forall wfFeatures (elems s)) (perRead (payload pr))
}.

(** Every per-read list whose bit is set has a length that a uint32 holds. *)
Definition lensFit (pr : pileupRow) : Prop :=
  forall b, (b < pileup.NBase)%nat ->
    hasField (fieldsPresent pr) (perReadBit b) = true ->
    lenFeatures (perReadAt (payload pr) b) < 2 ^ 32.

(** ** The row a decoder of the wire format yields *)

(** Header fields as stored; counts as stored when their bit is set, zero
    otherwise; for each canonical base a slice of the stored records when its
    bit is set, the nil slice otherwise. *)
Definition decodedRow (pr : pileupRow) : pileupRow :=
  mkRow (fieldsPresent pr) (refID pr) (pos pr)
    (mkPayload (depth (payload pr))
       (if hasField (fieldsPresent pr) fieldCounts
        then counts (payload pr)
        else repeat (0, 0) pileup.NBaseEnum)
       (map (fun b => if hasField (fieldsPresent pr) (perReadBit b)
                      then features (elems (perReadAt (payload pr) b))
                      else nilFeatures)
            (seq 0 pileup.NBase))).

(** The ten assignments of lines 190-199, with the values of [src]. *)
Definition storeCounts (src dst : pileupRow) : pileupRow :=
  setCount1 pileup.BaseX (count1 (payload src) pileup.BaseX)
    (setCount0 pileup.BaseX (count0 (payload src) pileup.BaseX)
    (setCount1 pileup.BaseT (count1 (payload src) pileup.BaseT)
    (setCount0 pileup.BaseT (count0 (payload src) pileup.BaseT)
    (setCount1 pileup.BaseG (count1 (payload src) pileup.BaseG)
    (setCount0 pileup.BaseG (count0 (payload src) pileup.BaseG)
    (setCount1 pileup.BaseC (count1 (payload src) pileup.BaseC)
    (setCount0 pileup.BaseC (count0 (payload src) pileup.BaseC)
    (setCount1 pileup.BaseA (count1 (payload src) pileup.BaseA)
    (setCount0 pileup.BaseA (count0 (payload src) pileup.BaseA) dst))))))))).

(** The assignments of line 215 over the bases [bs], with the lists of [src]. *)
Definition storePerRead (src : pileupRow) (bs : list nat) (dst : pileupRow)
  : pileupRow :=
  fold_left
    (fun acc b =>
       if hasField (fieldsPresent src) (perReadBit b)
       then setPerRead b (features (elems (perReadAt (payload src) b))) acc
       else acc)
    bs dst.

(** ** Rows compared field by field *)

(** The row with every payload field whose bit is unset at its zero value. *)
Definition canon (pr : pileupRow) : pileupRow :=
  mkRow (fieldsPresent pr) (refID pr) (pos pr)
    (mkPayload (depth (payload pr))
       (if hasField (fieldsPresent pr) fieldCounts
        then counts (payload pr)
        else repeat (0, 0) pileup.NBaseEnum)
       (map (fun b => if hasField (fieldsPresent pr) (perReadBit b)
                      then perReadAt (payload pr) b
                      else nilFeatures)
            (seq 0 pileup.NBase))).

(** Field-by-field equality; two per-read lists are equal when they have the
    same elements in the same order. *)
Definition rowEq (r1 r2 : pileupRow) : Prop :=
  fieldsPresent r1 = fieldsPresent r2 /\
  refID r1 = refID r2 /\
  pos r1 = pos r2 /\
  depth (payload r1) = depth (payload r2) /\
  counts (payload r1) = counts (payload r2) /\
  map elems (perRead (payload r1)) = map elems (perRead (payload r2)).

(** ** The store while a buffer is being filled *)

(** The store in which array [a], whose contents were [A], holds the bytes [W]
    at its front and is unchanged behind them. *)
Definition writtenMem (M : mem) (a : nat) (A W : list Z) : mem :=
  updNth a (W ++ skipn (length W) A) M.

Definition written (pr : pileupRow) (M : mem) (a : nat) (A W : list Z) : heap :=
  mkHeap pr (writtenMem M a A W).

(** ** Rows used as examples *)

(** The scenario of the specification: Counts|PerReadA, refID 7, pos 100,
    depth 5, counts[A] = (3, 2), one record for base A. *)
Definition scenarioRow : pileupRow :=
  mkRow (Z.lor fieldCounts fieldPerReadA) 7 100
    (mkPayload 5 [(3, 2); (0, 0); (0, 0); (0, 0); (0, 0)]
       [features [mkFeatures 10 150 30 0]; nilFeatures; nilFeatures; nilFeatures]).

Definition scenarioBytes : list Z :=
  [3; 0; 0; 0;  7; 0; 0; 0;  100; 0; 0; 0;  5; 0; 0; 0;
   3; 0; 0; 0;  2; 0; 0; 0;  0; 0; 0; 0;  0; 0; 0; 0;  0; 0; 0; 0;
   0; 0; 0; 0;  0; 0; 0; 0;  0; 0; 0; 0;  0; 0; 0; 0;  0; 0; 0; 0;
   1; 0; 0; 0;  10; 0; 150; 0; 30; 0].

(** The five defined flags together. *)
Definition definedFields : Z := Z.lor fieldCounts fieldPerReadAny.

(** A row with only the bit of base A set, and the list [l] for base A. *)
Definition rowWithA (l : list perReadFeatures) : pileupRow :=
  mkRow fieldPerReadA 0 0
    (mkPayload 0 (repeat (0, 0) pileup.NBaseEnum)
       [features l; nilFeatures; nilFeatures; nilFeatures]).

(** A row with the bits of A and C set, the list [l] for A and an empty list
    for C. *)
Definition rowWithAC (l : list perReadFeatures) : pileupRow :=
  mkRow (Z.lor fieldPerReadA fieldPerReadC) 0 0
    (mkPayload 0 (repeat (0, 0) pileup.NBaseEnum)
       [features l; features []; nilFeatures; nilFeatures]).

(** 2^32 records for base A. *)
Definition longList : list perReadFeatures :=
  repeat zeroFeatures (Z.to_nat (2 ^ 32)).

Definition longRow : pileupRow := rowWithA longList.

(** 2^32 records for base A, each with dist5p = 1, and an empty list for C. *)
Definition wrapList : list perReadFeatures :=
  mkFeatures 1 0 0 0 :: mkFeatures 1 0 0 0
    :: repeat (mkFeatures 1 0 0 0) (Z.to_nat (2 ^ 32 - 2)).

Definition wrapRow : pileupRow := rowWithAC wrapList.

(** What the decoder makes of the encoding of [wrapRow]: no record for A, and
    for C one record read from the bytes of the records of A. *)
Definition shiftedRow : pileupRow :=
  mkRow (Z.lor fieldPerReadA fieldPerReadC) 0 0
    (mkPayload 0 (repeat (0, 0) pileup.NBaseEnum)
       [features []; features [mkFeatures 0 1 0 0]; nilFeatures; nilFeatures]).

(** The bits of Counts and of base C set, zero counts and no record. *)
Definition emptyCRow : pileupRow :=
  mkRow (Z.lor fieldCounts fieldPerReadC) 0 0 zeroPayload.

(** Only the bit of Counts set, and a record for base A left in memory. *)
Definition staleRow : pileupRow :=
  mkRow fieldCounts 0 0
    (mkPayload 0 (repeat (0, 0) pileup.NBaseEnum)
       [features [mkFeatures 1 2 3 4]; nilFeatures; nilFeatures; nilFeatures]).

(** Buffers shorter than what they declare: five bytes of a header; a header
    with the bit of base A and a list length of 1, and no record; three bytes
    in an array of sixteen. *)
Definition truncatedHeader : bytes := mkBytes [3; 0; 0; 0; 7] [].
Definition truncatedList : bytes :=
  mkBytes (le32 fieldPerReadA ++ repeat 0 12 ++ le32 1) [].
Definition shortWithCapacity : bytes := mkBytes [0; 0; 0] (repeat 0 13).

(** The row of the scenario with a record left in memory for base C, whose
    bit is unset. *)
Definition scenarioRowStale : pileupRow :=
  setPerRead pileup.BaseC (features [mkFeatures 1 2 3 4]) scenarioRow.

(** The values [Uint16] and [Uint32] make of the bytes they load. *)
Definition word16 (b0 b1 : Z) : Z := Z.lor b0 (u16 (Z.shiftl b1 8)).

Definition word32 (b0 b1 b2 b3 : Z) : Z :=
  Z.lor (Z.lor (Z.lor b0 (u32 (Z.shiftl b1 8))) (u32 (Z.shiftl b2 16)))
        (u32 (Z.shiftl b3 24)).

(** * Properties *)

(** ** The result monad *)

Lemma bind_Ok {A B : Type} (m : result A) (f : A -> result B) (a : A) :
  m = Ok a -> bind m f = f a.
Proof. intros ->; reflexivity. Qed.

Lemma bind_inv {A B : Type} (m : result A) (f : A -> result B) (b : B) :
  bind m f = Ok b -> exists a, m = Ok a /\ f a = Ok b.
Proof. destruct m as [a|]; simpl; intros H; [eauto | discriminate]. Qed.

(** ** Bytes of an integer *)

Lemma testbit_u8 (x n : Z) :
  0 <= n -> Z.testbit (u8 x) n = (n <? 8) && Z.testbit x n.
Proof.
  intros Hn; unfold u8.
  destruct (Z.ltb_spec n 8).
  - rewrite Z.mod_pow2_bits_low by lia; reflexivity.
  - rewrite Z.mod_pow2_bits_high by lia; reflexivity.
Qed.

Lemma testbit_u16 (x n : Z) :
  0 <= n -> Z.testbit (u16 x) n = (n <? 16) && Z.testbit x n.
Proof.
  intros Hn; unfold u16.
  destruct (Z.ltb_spec n 16).
  - rewrite Z.mod_pow2_bits_low by lia; reflexivity.
  - rewrite Z.mod_pow2_bits_high by lia; reflexivity.
Qed.

Lemma testbit_u32 (x n : Z) :
  0 <= n -> Z.testbit (u32 x) n = (n <? 32) && Z.testbit x n.
Proof.
  intros Hn; unfold u32.
  destruct (Z.ltb_spec n 32).
  - rewrite Z.mod_pow2_bits_low by lia; reflexivity.
  - rewrite Z.mod_pow2_bits_high by lia; reflexivity.
Qed.

Lemma testbit_shifted_byte (v k n : Z) :
  0 <= k -> 0 <= n ->
  Z.testbit (Z.shiftl (u8 (Z.shiftr v k)) k) n
  = (k <=? n) && (n <? k + 8) && Z.testbit v n.
Proof.
  intros Hk Hn.
  rewrite Z.shiftl_spec by lia.
  destruct (Z.leb_spec k n).
  - rewrite testbit_u8 by lia. rewrite Z.shiftr_spec by lia.
    replace (n - k + k) with n by lia.
    replace (n - k <? 8) with (n <? k + 8) by lia. reflexivity.
  - rewrite Z.testbit_neg_r by lia. reflexivity.
Qed.

Lemma u8_small (x : Z) : isU8 x -> u8 x = x.
Proof. unfold isU8, u8; intros; apply Z.mod_small; lia. Qed.

Lemma u32_small (x : Z) : isU32 x -> u32 x = x.
Proof. unfold isU32, u32; intros; apply Z.mod_small; lia. Qed.

Lemma isU8_u8 (x : Z) : isU8 (u8 x).
Proof. unfold isU8, u8; apply Z.mod_pos_bound; lia. Qed.

Lemma isU32_u32 (x : Z) : isU32 (u32 x).
Proof. unfold isU32, u32; apply Z.mod_pos_bound; lia. Qed.

Lemma testbit_above (x k n : Z) :
  0 <= x < 2 ^ k -> 0 <= k <= n -> Z.testbit x n = false.
Proof.
  intros Hx Hk.
  rewrite <- (Z.mod_small x (2 ^ k)) by lia.
  apply Z.mod_pow2_bits_high; lia.
Qed.

(** Reading back the two bytes [PutUint16] stores. *)
Lemma Uint16_le16 (v : Z) :
  isU16 v -> Z.lor (u8 v) (u16 (Z.shiftl (u8 (Z.shiftr v 8)) 8)) = v.
Proof.
  intros Hv. apply Z.bits_inj'; intros n Hn.
  rewrite Z.lor_spec, testbit_u16, testbit_u8, testbit_shifted_byte by lia.
  destruct (Z.ltb_spec n 16).
  - destruct (Z.ltb_spec n 8), (Z.leb_spec 8 n), (Z.ltb_spec n (8 + 8));
      try lia; simpl; rewrite ?orb_false_r; reflexivity.
  - rewrite (testbit_above v 16 n) by (unfold isU16 in Hv; lia).
    rewrite !andb_false_r. reflexivity.
Qed.

(** Reading back the four bytes [PutUint32] stores. *)
Lemma Uint32_le32 (v : Z) :
  isU32 v ->
  Z.lor (Z.lor (Z.lor (u8 v) (u32 (Z.shiftl (u8 (Z.shiftr v 8)) 8)))
               (u32 (Z.shiftl (u8 (Z.shiftr v 16)) 16)))
        (u32 (Z.shiftl (u8 (Z.shiftr v 24)) 24)) = v.
Proof.
  intros Hv. apply Z.bits_inj'; intros n Hn.
  rewrite !Z.lor_spec, !testbit_u32, testbit_u8, !testbit_shifted_byte by lia.
  destruct (Z.ltb_spec n 32).
  - destruct (Z.ltb_spec n 8), (Z.leb_spec 8 n), (Z.ltb_spec n (8 + 8)),
      (Z.leb_spec 16 n), (Z.ltb_spec n (16 + 8)),
      (Z.leb_spec 24 n), (Z.ltb_spec n (24 + 8));
      try lia; simpl; rewrite ?orb_false_r; reflexivity.
  - rewrite (testbit_above v 32 n) by (unfold isU32 in Hv; lia).
    rewrite !andb_false_r. reflexivity.
Qed.

(** ** Lists updated by index *)

Lemma updNth_twice {A : Type} (n : nat) (x y : A) (l : list A) :
  updNth n x (updNth n y l) = updNth n x l.
Proof.
  revert n; induction l as [|z l IH]; intros [|n]; simpl; try reflexivity.
  now rewrite IH.
Qed.

Lemma length_updNth {A : Type} (n : nat) (x : A) (l : list A) :
  length (updNth n x l) = length l.
Proof.
  revert n; induction l as [|z l IH]; intros [|n]; simpl; try reflexivity.
  now rewrite IH.
Qed.

Lemma nth_error_updNth_eq {A : Type} (n : nat) (x : A) (l : list A) :
  (n < length l)%nat -> nth_error (updNth n x l) n = Some x.
Proof.
  revert n; induction l as [|z l IH]; intros [|n]; simpl; intros H;
    try lia; try reflexivity.
  apply IH; lia.
Qed.

Lemma nth_error_updNth_neq {A : Type} (n k : nat) (x : A) (l : list A) :
  n <> k -> nth_error (updNth n x l) k = nth_error l k.
Proof.
  revert n k; induction l as [|z l IH]; intros [|n] [|k] H; simpl;
    try reflexivity; try congruence.
  apply IH; congruence.
Qed.

Lemma updNth_same {A : Type} (n : nat) (x : A) (l : list A) :
  nth_error l n = Some x -> updNth n x l = l.
Proof.
  revert n; induction l as [|z l IH]; intros [|n]; simpl; intros H;
    try reflexivity; try congruence.
  now rewrite IH.
Qed.

Lemma updNth_frontier {A : Type} (W : list A) (v x : A) (R : list A) :
  updNth (length W) v (W ++ x :: R) = W ++ v :: R.
Proof. induction W as [|w W IH]; simpl; [reflexivity | now rewrite IH]. Qed.

Lemma modNth_frontier {A : Type} (W : list A) (f : A -> A) (x : A) (R : list A) :
  modNth (length W) f (W ++ x :: R) = W ++ f x :: R.
Proof. induction W as [|w W IH]; simpl; [reflexivity | now rewrite IH]. Qed.

Lemma skipn_frontier {A : Type} (n : nat) (l : list A) :
  (n < length l)%nat -> exists x, skipn n l = x :: skipn (S n) l.
Proof.
  revert n; induction l as [|z l IH]; intros [|n] H; simpl in *; try lia.
  - now exists z.
  - destruct (IH n) as [x Hx]; [lia|]. exists x. exact Hx.
Qed.

Lemma nth_error_frontier {A : Type} (D T : list A) (k : nat) :
  nth_error (D ++ T) (length D + k) = nth_error T k.
Proof. induction D as [|d D IH]; simpl; [reflexivity | exact IH]. Qed.

(** ** Slice expressions that are in range *)

Lemma reslice_ok (s : slice) (lo hi : Z) :
  0 <= lo <= hi -> hi <= s_cap s ->
  reslice s lo hi
  = Ok (mkSlice (s_arr s) (s_off s + lo) (hi - lo) (s_cap s - lo)).
Proof.
  intros H1 H2. unfold reslice.
  destruct (Z.leb_spec 0 lo), (Z.leb_spec lo hi), (Z.leb_spec hi (s_cap s));
    try lia; reflexivity.
Qed.

Lemma cutAndAdvance_ok (a : nat) (L C offset n : Z) :
  0 <= offset <= L -> L <= C -> 0 <= n -> offset + n <= C ->
  cutAndAdvance offset (mkSlice a 0 L C) n
  = Ok (offset + n, mkSlice a offset n (C - offset)).
Proof.
  intros H1 H2 H3 H4. unfold cutAndAdvance, resliceFrom, resliceTo.
  rewrite reslice_ok by (simpl; lia). simpl bind.
  rewrite reslice_ok by (simpl; lia). simpl.
  rewrite Z.add_0_r, Z.sub_0_r.
  replace (n - 0) with n by lia.
  replace (C - offset - 0) with (C - offset) by lia.
  reflexivity.
Qed.

(** A cut panics exactly when it leaves the slice: its start is beyond
    [len(s)] or its end beyond [cap(s)]. *)
Lemma cutAndAdvance_panic (s : slice) (offset n : Z) :
  s_len s < offset \/ s_cap s < offset + n ->
  cutAndAdvance offset s n = Panic.
Proof.
  intros H. unfold cutAndAdvance, resliceFrom, resliceTo, reslice.
  destruct (Z.leb_spec 0 offset), (Z.leb_spec offset (s_len s)),
    (Z.leb_spec (s_len s) (s_cap s)); simpl; try reflexivity.
  destruct (Z.leb_spec 0 n), (Z.leb_spec n (s_cap s - offset)); simpl;
    try reflexivity.
  lia.
Qed.

(** ** Stores at the frontier of the written bytes *)

Section Writer.

Variables (pr : pileupRow) (M : mem) (a : nat) (A : list Z).
Hypothesis Ha : (a < length M)%nat.

Lemma storeByteMem_written (W : list Z) (s : slice) (i v : Z) :
  s_arr s = a -> 0 <= i < s_len s ->
  s_off s + i = Z.of_nat (length W) ->
  (length W < length A)%nat ->
  storeByteMem (writtenMem M a A W) s i v = Ok (writtenMem M a A (W ++ [v])).
Proof using Ha.
  intros Hs Hi Hoff Hlt. unfold storeByteMem, writtenMem.
  destruct (Z.leb_spec 0 i), (Z.ltb_spec i (s_len s)); try lia. simpl.
  rewrite Hs, nth_error_updNth_eq by exact Ha.
  rewrite Hoff, Nat2Z.id.
  destruct (skipn_frontier (length W) A Hlt) as [x Hx].
  rewrite Hx.
  destruct (Nat.ltb_spec (length W) (length (W ++ x :: skipn (S (length W)) A)))
    as [_|Hge]; [|rewrite length_app in Hge; simpl in Hge; lia].
  rewrite updNth_frontier, updNth_twice.
  rewrite length_app, Nat.add_1_r, <- app_assoc. reflexivity.
Qed.

Lemma loadByte_written (W : list Z) (s : slice) (i : Z) :
  s_arr s = a -> 0 <= i < s_len s -> 0 <= s_off s ->
  (Z.to_nat (s_off s + i) < length A)%nat ->
  (length W <= length A)%nat ->
  exists v, loadByte (writtenMem M a A W) s i = Ok v.
Proof using Ha.
  intros Hs Hi Hoff Hlt HW. unfold loadByte, writtenMem.
  destruct (Z.leb_spec 0 i), (Z.ltb_spec i (s_len s)); try lia. simpl.
  rewrite Hs, nth_error_updNth_eq by exact Ha.
  destruct (nth_error (W ++ skipn (length W) A) (Z.to_nat (s_off s + i))) eqn:E.
  - eauto.
  - apply nth_error_None in E.
    rewrite length_app, length_skipn in E. lia.
Qed.

Lemma storeByte_written (W : list Z) (s : slice) (i v : Z) :
  s_arr s = a -> 0 <= i < s_len s ->
  s_off s + i = Z.of_nat (length W) ->
  (length W < length A)%nat ->
  storeByte (written pr M a A W) s i v = Ok (written pr M a A (W ++ [v])).
Proof using Ha.
  intros. unfold storeByte, written. simpl h_mem.
  rewrite storeByteMem_written by assumption. reflexivity.
Qed.

Lemma PutUint16_written (W : list Z) (s : slice) (v : Z) :
  s_arr s = a -> 2 <= s_len s ->
  s_off s = Z.of_nat (length W) ->
  (length W + 2 <= length A)%nat ->
  PutUint16 (written pr M a A W) s v = Ok (written pr M a A (W ++ le16 v)).
Proof using Ha.
  intros Hs Hlen Hoff HA. unfold PutUint16, LittleEndian.PutUint16, written.
  simpl h_mem. simpl h_row.
  destruct (loadByte_written W s 1) as [x ->]; try lia. simpl bind.
  rewrite storeByteMem_written by lia. simpl bind.
  rewrite storeByteMem_written by (rewrite ?length_app; simpl; lia).
  simpl. rewrite <- app_assoc. reflexivity.
Qed.

Lemma PutUint32_written (W : list Z) (s : slice) (v : Z) :
  s_arr s = a -> 4 <= s_len s ->
  s_off s = Z.of_nat (length W) ->
  (length W + 4 <= length A)%nat ->
  PutUint32 (written pr M a A W) s v = Ok (written pr M a A (W ++ le32 v)).
Proof using Ha.
  intros Hs Hlen Hoff HA. unfold PutUint32, LittleEndian.PutUint32, written.
  simpl h_mem. simpl h_row.
  destruct (loadByte_written W s 3) as [x ->]; try lia. simpl bind.
  rewrite storeByteMem_written by lia. simpl bind.
  rewrite storeByteMem_written by (rewrite ?length_app; simpl; lia). simpl bind.
  rewrite storeByteMem_written by (rewrite ?length_app; simpl; lia). simpl bind.
  rewrite storeByteMem_written by (rewrite ?length_app; simpl; lia).
  simpl. rewrite <- !app_assoc. reflexivity.
Qed.

End Writer.

(** ** The encoder appends the wire format to the written bytes *)

Lemma h_row_written (pr : pileupRow) (M : mem) (a : nat) (A W : list Z) :
  h_row (written pr M a A W) = pr.
Proof. reflexivity. Qed.

Lemma length_le16 (v : Z) : length (le16 v) = 2%nat.
Proof. reflexivity. Qed.

Lemma length_le32 (v : Z) : length (le32 v) = 4%nat.
Proof. reflexivity. Qed.

Lemma length_wireFeature (f : perReadFeatures) : length (wireFeature f) = 6%nat.
Proof. reflexivity. Qed.

Lemma length_wireFeatures (l : list perReadFeatures) :
  length (wireFeatures l) = (6 * length l)%nat.
Proof.
  induction l as [|f l IH]; [reflexivity|].
  unfold wireFeatures in *; cbn [flat_map].
  rewrite length_app, IH, length_wireFeature. simpl length. lia.
Qed.

Lemma length_wireHeader (pr : pileupRow) : length (wireHeader pr) = 16%nat.
Proof. reflexivity. Qed.

Lemma length_wireCounts (pr : pileupRow) : length (wireCounts pr) = 40%nat.
Proof. reflexivity. Qed.

Ltac lenSolve :=
  first [ assumption
        | reflexivity
        | cbn [s_arr s_off s_len s_cap];
          rewrite ?length_app, ?length_le32, ?length_le16, ?length_wireFeature,
            ?length_wireFeatures, ?length_wireHeader, ?length_wireCounts;
          cbn [length]; lia ].

Ltac wstep :=
  rewrite ?h_row_written;
  first [ rewrite cutAndAdvance_ok by lenSolve
        | rewrite reslice_ok by lenSolve
        | unfold resliceTo; rewrite reslice_ok by lenSolve
        | rewrite PutUint32_written by lenSolve
        | rewrite PutUint16_written by lenSolve
        | rewrite storeByte_written by lenSolve ];
  cbn [bind].

Section Encoder.
Variables (pr : pileupRow) (M : mem) (a : nat) (A : list Z) (L C : Z).
Hypothesis Ha : (a < length M)%nat.
Hypothesis HC : C = Z.of_nat (length A).
Hypothesis HL : 0 <= L <= C.

Lemma marshalHeader_written (W : list Z) :
  Z.of_nat (length W) + 16 <= L ->
  marshalHeader (written pr M a A W) (mkSlice a 0 L C) (Z.of_nat (length W))
  = Ok (written pr M a A (W ++ wireHeader pr), Z.of_nat (length W) + 16).
Proof using Ha HC HL.
  intros HW. unfold marshalHeader.
  do 9 wstep.
  unfold wireHeader. rewrite <- !app_assoc. reflexivity.
Qed.

Lemma marshalCounts_written (W : list Z) :
  Z.of_nat (length W) + 40 <= L ->
  marshalCounts (written pr M a A W) (mkSlice a 0 L C) (Z.of_nat (length W))
  = Ok (written pr M a A (W ++ wireCounts pr), Z.of_nat (length W) + 40).
Proof using Ha HC HL.
  intros HW. unfold marshalCounts.
  do 21 wstep.
  unfold wireCounts. rewrite <- !app_assoc. reflexivity.
Qed.

Lemma marshalFeatures_written (l : list perReadFeatures) (W : list Z) :
  Z.of_nat (length W) + 6 * Z.of_nat (length l) <= L ->
  marshalFeatures (written pr M a A W) (mkSlice a 0 L C) (Z.of_nat (length W)) l
  = Ok (written pr M a A (W ++ wireFeatures l),
        Z.of_nat (length W) + 6 * Z.of_nat (length l)).
Proof using Ha HC HL.
  revert W; induction l as [|src l IH]; intros W HW.
  - simpl. rewrite app_nil_r. repeat f_equal; lia.
  - cbn [marshalFeatures]. cbn [length] in HW.
    do 7 wstep.
    replace ((((W ++ le16 (dist5p src)) ++ le16 (fraglen src)) ++ [qual src])
               ++ [strand src]) with (W ++ wireFeature src)
      by (unfold wireFeature, le16; rewrite <- !app_assoc; reflexivity).
    replace (Z.of_nat (length W) + 6)
      with (Z.of_nat (length (W ++ wireFeature src))) by lenSolve.
    rewrite IH by lenSolve.
    unfold wireFeatures; cbn [flat_map]. rewrite <- app_assoc.
    f_equal. f_equal. lenSolve.
Qed.

Lemma marshalPerRead_written (bs : list nat) (W : list Z) :
  Z.of_nat (length W) + Z.of_nat (length (flat_map (wirePerRead pr) bs)) <= L ->
  marshalPerRead (written pr M a A W) (mkSlice a 0 L C) (fieldsPresent pr)
    (Z.of_nat (length W)) bs
  = Ok (written pr M a A (W ++ flat_map (wirePerRead pr) bs),
        Z.of_nat (length W)
        + Z.of_nat (length (flat_map (wirePerRead pr) bs))).
Proof using Ha HC HL.
  revert W; induction bs as [|b bs IH]; intros W HW.
  - simpl. rewrite app_nil_r. repeat f_equal; lia.
  - cbn [marshalPerRead]. cbn [flat_map] in *.
    rewrite length_app in HW.
    destruct (hasField (fieldsPresent pr) (perReadBit b)) eqn:E.
    + assert (Hw : wirePerRead pr b
                   = le32 (u32 (lenFeatures (perReadAt (payload pr) b)))
                       ++ wireFeatures (elems (perReadAt (payload pr) b)))
        by (unfold wirePerRead; rewrite E; reflexivity).
      rewrite Hw in *. rewrite length_app, length_le32, length_wireFeatures in HW.
      do 2 wstep.
      replace (Z.of_nat (length W) + 4)
        with (Z.of_nat (length (W ++ le32 (u32 (lenFeatures (perReadAt (payload pr) b))))))
        by lenSolve.
      rewrite h_row_written.
      rewrite marshalFeatures_written by lenSolve. cbn [bind].
      match goal with
      | |- marshalPerRead (written _ _ _ _ ?W') _ _ ?o _ = _ =>
          replace o with (Z.of_nat (length W')) by lenSolve
      end.
      rewrite IH by lenSolve.
      rewrite <- !app_assoc. f_equal. f_equal. lenSolve.
    + assert (Hw : wirePerRead pr b = [])
        by (unfold wirePerRead; rewrite E; reflexivity).
      rewrite Hw in *. cbn [length app] in *.
      rewrite IH by lia. reflexivity.
Qed.
End Encoder.

(** ** Presence bits *)

Lemma hasField_false (fp mask : Z) :
  hasField fp mask = false <-> Z.land fp mask = 0.
Proof.
  unfold hasField. destruct (Z.eqb_spec (Z.land fp mask) 0); simpl; split;
    intros; congruence.
Qed.

Lemma land_submask (fp big small : Z) :
  Z.land big small = small -> Z.land fp big = 0 -> Z.land fp small = 0.
Proof.
  intros Hs Hb. rewrite <- Hs, Z.land_assoc, Hb. reflexivity.
Qed.

Lemma perReadBit_cases (b : nat) :
  (b < pileup.NBase)%nat ->
  Z.land fieldPerReadAny (perReadBit b) = perReadBit b.
Proof.
  intros Hb. unfold pileup.NBase in Hb.
  destruct b as [|[|[|[|b]]]]; try lia; reflexivity.
Qed.

(** No bit of [fieldPerReadAny] set: no per-read bit set. *)
Lemma perReadAny_unset (fp : Z) (b : nat) :
  hasField fp fieldPerReadAny = false -> (b < pileup.NBase)%nat ->
  hasField fp (perReadBit b) = false.
Proof.
  intros H Hb. apply hasField_false in H. apply hasField_false.
  eapply land_submask; [apply perReadBit_cases; exact Hb | exact H].
Qed.

Lemma wirePerRead_any_unset (pr : pileupRow) :
  hasField (fieldsPresent pr) fieldPerReadAny = false ->
  flat_map (wirePerRead pr) (seq 0 pileup.NBase) = [].
Proof.
  intros H. unfold wirePerRead. cbn [seq pileup.NBase flat_map].
  rewrite !(perReadAny_unset _ _ H) by (unfold pileup.NBase; lia).
  reflexivity.
Qed.

(** ** Lengths *)

Lemma length_wirePerRead (pr : pileupRow) (b : nat) :
  Z.of_nat (length (wirePerRead pr b))
  = if hasField (fieldsPresent pr) (perReadBit b)
    then 4 + 6 * lenFeatures (perReadAt (payload pr) b) else 0.
Proof.
  unfold wirePerRead, lenFeatures.
  destruct (hasField (fieldsPresent pr) (perReadBit b)); [|reflexivity].
  rewrite length_app, length_le32, length_wireFeatures. lia.
Qed.

Lemma length_wireFormat (pr : pileupRow) :
  Z.of_nat (length (wireFormat pr)) = specLength pr.
Proof.
  unfold wireFormat, specLength.
  rewrite !length_app, length_wireHeader.
  cbn [seq pileup.NBase flat_map map fold_right].
  rewrite !length_app. cbn [length].
  rewrite !Nat2Z.inj_add, !length_wirePerRead.
  destruct (hasField (fieldsPresent pr) fieldCounts);
    rewrite ?length_wireCounts; cbn [length]; lia.
Qed.

(** The length computed up-front is the length formula. *)
Lemma bytesReqOf_specLength (pr : pileupRow) :
  bytesReqOf pr = specLength pr.
Proof.
  unfold bytesReqOf, specLength.
  cbn [seq pileup.NBase fold_left map fold_right].
  destruct (hasField (fieldsPresent pr) fieldPerReadAny) eqn:E.
  - destruct (hasField (fieldsPresent pr) fieldCounts),
      (hasField (fieldsPresent pr) (perReadBit 0)),
      (hasField (fieldsPresent pr) (perReadBit 1)),
      (hasField (fieldsPresent pr) (perReadBit 2)),
      (hasField (fieldsPresent pr) (perReadBit 3)); lia.
  - rewrite !(perReadAny_unset _ _ E) by (unfold pileup.NBase; lia).
    destruct (hasField (fieldsPresent pr) fieldCounts); lia.
Qed.

Lemma bytesReqOf_wireFormat (pr : pileupRow) :
  bytesReqOf pr = Z.of_nat (length (wireFormat pr)).
Proof. rewrite length_wireFormat. apply bytesReqOf_specLength. Qed.

Lemma bytesReqOf_min (pr : pileupRow) : 16 <= bytesReqOf pr.
Proof.
  rewrite bytesReqOf_wireFormat. unfold wireFormat.
  rewrite length_app, length_wireHeader. lia.
Qed.

(** ** The encoder on a buffer that is long enough *)

Lemma written_nil (pr : pileupRow) (M : mem) (a : nat) (A : list Z) :
  nth_error M a = Some A -> written pr M a A [] = mkHeap pr M.
Proof.
  intros H. unfold written, writtenMem. cbn [app length skipn].
  now rewrite updNth_same.
Qed.

Lemma marshalInto_written (pr : pileupRow) (M : mem) (a : nat) (A : list Z) (L C : Z) :
  nth_error M a = Some A -> C = Z.of_nat (length A) -> 0 <= L <= C ->
  bytesReqOf pr <= L ->
  marshalInto (mkHeap pr M) (mkSlice a 0 L C) (fieldsPresent pr)
  = Ok (written pr M a A (wireFormat pr), (mkSlice a 0 L C, nilError)).
Proof.
  intros HA HC HL Hreq.
  assert (Ha : (a < length M)%nat) by (apply nth_error_Some; congruence).
  rewrite bytesReqOf_wireFormat in Hreq. unfold wireFormat in *.
  rewrite !length_app, length_wireHeader in Hreq.
  rewrite <- (written_nil pr M a A HA).
  unfold marshalInto.
  change 0 with (Z.of_nat (length (@nil Z))) at 1.
  rewrite (marshalHeader_written pr M a A L C Ha HC HL) by (cbn [length]; lia).
  cbn [bind app length].
  change (Z.of_nat 0 + 16) with (Z.of_nat (length (wireHeader pr))).
  destruct (hasField (fieldsPresent pr) fieldCounts) eqn:Ec.
  - rewrite length_wireCounts in Hreq.
    rewrite (marshalCounts_written pr M a A L C Ha HC HL) by lenSolve.
    cbn [bind].
    replace (Z.of_nat (length (wireHeader pr)) + 40)
      with (Z.of_nat (length (wireHeader pr ++ wireCounts pr))) by lenSolve.
    destruct (hasField (fieldsPresent pr) fieldPerReadAny) eqn:Ea.
    + rewrite (marshalPerRead_written pr M a A L C Ha HC HL) by lenSolve.
      cbn [bind]. rewrite <- app_assoc. reflexivity.
    + rewrite (wirePerRead_any_unset pr Ea). cbn [bind].
      rewrite app_nil_r. reflexivity.
  - cbn [bind app length] in *.
    destruct (hasField (fieldsPresent pr) fieldPerReadAny) eqn:Ea.
    + rewrite (marshalPerRead_written pr M a A L C Ha HC HL) by lenSolve.
      cbn [bind]. reflexivity.
    + rewrite (wirePerRead_any_unset pr Ea). cbn [bind]. reflexivity.
Qed.

(** ** Loads from a buffer that holds known bytes *)

Section Reader.

Variables (m : mem) (a : nat) (D T : list Z).
Hypothesis Hm : nth_error m a = Some (D ++ T).

Lemma loadByte_at (s : slice) (i : Z) (k : nat) (v : Z) :
  s_arr s = a -> 0 <= i < s_len s ->
  s_off s + i = Z.of_nat (length D) + Z.of_nat k ->
  nth_error T k = Some v ->
  loadByte m s i = Ok v.
Proof using Hm.
  intros Hs Hi Hoff Hv. unfold loadByte.
  destruct (Z.leb_spec 0 i), (Z.ltb_spec i (s_len s)); try lia. simpl.
  rewrite Hs, Hm, Hoff, <- Nat2Z.inj_add, Nat2Z.id, nth_error_frontier, Hv.
  reflexivity.
Qed.

Lemma window_nth_error (n k j : nat) (l : list Z) :
  firstn n (skipn k T) = l -> (j < length l)%nat ->
  nth_error T (k + j) = nth_error l j.
Proof using Type.
  intros <- Hj. rewrite nth_error_firstn, nth_error_skipn.
  rewrite length_firstn in Hj.
  destruct (Nat.ltb_spec j n); [reflexivity | lia].
Qed.

Lemma Uint16_at (s : slice) (k : nat) (v : Z) :
  s_arr s = a -> 2 <= s_len s ->
  s_off s = Z.of_nat (length D) + Z.of_nat k ->
  firstn 2 (skipn k T) = le16 v -> isU16 v ->
  LittleEndian.Uint16 m s = Ok v.
Proof using Hm.
  intros Hs Hlen Hoff Hw Hv. unfold LittleEndian.Uint16.
  rewrite (loadByte_at s 1 (k + 1) (u8 (Z.shiftr v 8)));
    [ | assumption | lia | lia | (rewrite (window_nth_error _ _ _ _ Hw) by (cbn [length le16 le32]; lia); reflexivity)].
  cbn [bind].
  rewrite (loadByte_at s 0 (k + 0) (u8 v));
    [ | assumption | lia | lia | (rewrite (window_nth_error _ _ _ _ Hw) by (cbn [length le16 le32]; lia); reflexivity)].
  cbn [bind].
  cbn [bind]. now rewrite Uint16_le16.
Qed.

Lemma Uint32_at (s : slice) (k : nat) (v : Z) :
  s_arr s = a -> 4 <= s_len s ->
  s_off s = Z.of_nat (length D) + Z.of_nat k ->
  firstn 4 (skipn k T) = le32 v -> isU32 v ->
  LittleEndian.Uint32 m s = Ok v.
Proof using Hm.
  intros Hs Hlen Hoff Hw Hv. unfold LittleEndian.Uint32.
  rewrite (loadByte_at s 3 (k + 3) (u8 (Z.shiftr v 24)));
    [ | assumption | lia | lia | (rewrite (window_nth_error _ _ _ _ Hw) by (cbn [length le16 le32]; lia); reflexivity)].
  cbn [bind].
  rewrite (loadByte_at s 0 (k + 0) (u8 v));
    [ | assumption | lia | lia | (rewrite (window_nth_error _ _ _ _ Hw) by (cbn [length le16 le32]; lia); reflexivity)].
  cbn [bind].
  rewrite (loadByte_at s 1 (k + 1) (u8 (Z.shiftr v 8)));
    [ | assumption | lia | lia | (rewrite (window_nth_error _ _ _ _ Hw) by (cbn [length le16 le32]; lia); reflexivity)].
  cbn [bind].
  rewrite (loadByte_at s 2 (k + 2) (u8 (Z.shiftr v 16)));
    [ | assumption | lia | lia | (rewrite (window_nth_error _ _ _ _ Hw) by (cbn [length le16 le32]; lia); reflexivity)].
  cbn [bind].
  cbn [bind]. now rewrite Uint32_le32.
Qed.

End Reader.

(** ** The decoder on a buffer that holds the wire format *)

Ltac rd32 D T k v :=
  rewrite (Uint32_at _ _ D T ltac:(eassumption) _ k v);
  [ cbn [bind] | reflexivity | cbn [s_len]; lia | cbn [s_off]; lia
  | reflexivity | try assumption ].

Section Decoder.

Variables (m : mem) (a : nat) (L C : Z).
Hypothesis HL : 0 <= L <= C.

Lemma unmarshalHeader_wire (pr : pileupRow) (D T : list Z) :
  nth_error m a = Some (D ++ wireHeader pr ++ T) ->
  Z.of_nat (length D) <= L -> Z.of_nat (length D) + 16 <= C ->
  isU32 (fieldsPresent pr) -> isU32 (refID pr) -> isU32 (pos pr) ->
  isU32 (depth (payload pr)) ->
  unmarshalHeader m (mkSlice a 0 L C) (Z.of_nat (length D))
  = Ok (setDepth (depth (payload pr))
          (mkRow (fieldsPresent pr) (refID pr) (pos pr) zeroPayload),
        Z.of_nat (length D) + 16).
Proof using HL.
  intros Hm HD HD' H1 H2 H3 H4. unfold unmarshalHeader.
  rewrite cutAndAdvance_ok by lia. cbn [bind].
  unfold resliceTo. rewrite !reslice_ok by (cbn [s_cap]; lia). cbn [bind s_arr s_off s_len s_cap].
  rd32 D (wireHeader pr ++ T) 0%nat (fieldsPresent pr).
  rd32 D (wireHeader pr ++ T) 4%nat (refID pr).
  rd32 D (wireHeader pr ++ T) 8%nat (pos pr).
  rd32 D (wireHeader pr ++ T) 12%nat (depth (payload pr)).
  reflexivity.
Qed.

Lemma unmarshalCounts_wire (pr pr0 : pileupRow) (D T : list Z) :
  nth_error m a = Some (D ++ wireCounts pr ++ T) ->
  Z.of_nat (length D) <= L -> Z.of_nat (length D) + 40 <= C ->
  (forall b, isU32 (count0 (payload pr) b) /\ isU32 (count1 (payload pr) b)) ->
  unmarshalCounts m (mkSlice a 0 L C) pr0 (Z.of_nat (length D))
  = Ok (storeCounts pr pr0, Z.of_nat (length D) + 40).
Proof using HL.
  intros Hm HD HD' Hc. unfold unmarshalCounts.
  rewrite cutAndAdvance_ok by lia. cbn [bind].
  rewrite !reslice_ok by (cbn [s_cap]; lia). cbn [bind s_arr s_off s_len s_cap].
  rd32 D (wireCounts pr ++ T) 0%nat (count0 (payload pr) pileup.BaseA); [|apply Hc].
  rd32 D (wireCounts pr ++ T) 4%nat (count1 (payload pr) pileup.BaseA); [|apply Hc].
  rd32 D (wireCounts pr ++ T) 8%nat (count0 (payload pr) pileup.BaseC); [|apply Hc].
  rd32 D (wireCounts pr ++ T) 12%nat (count1 (payload pr) pileup.BaseC); [|apply Hc].
  rd32 D (wireCounts pr ++ T) 16%nat (count0 (payload pr) pileup.BaseG); [|apply Hc].
  rd32 D (wireCounts pr ++ T) 20%nat (count1 (payload pr) pileup.BaseG); [|apply Hc].
  rd32 D (wireCounts pr ++ T) 24%nat (count0 (payload pr) pileup.BaseT); [|apply Hc].
  rd32 D (wireCounts pr ++ T) 28%nat (count1 (payload pr) pileup.BaseT); [|apply Hc].
  rd32 D (wireCounts pr ++ T) 32%nat (count0 (payload pr) pileup.BaseX); [|apply Hc].
  rd32 D (wireCounts pr ++ T) 36%nat (count1 (payload pr) pileup.BaseX); [|apply Hc].
  reflexivity.
Qed.

Lemma unmarshalFeatures_wire (l done : list perReadFeatures) (D T : list Z) :
  nth_error m a = Some (D ++ wireFeatures l ++ T) ->
  Forall wfFeatures l ->
  Z.of_nat (length D) + 6 * Z.of_nat (length l) <= L ->
  unmarshalFeatures m (mkSlice a 0 L C) (length l) (length done)
    (Z.of_nat (length D)) (done ++ repeat zeroFeatures (length l))
  = Ok (Z.of_nat (length D) + 6 * Z.of_nat (length l), done ++ l).
Proof using HL.
  revert done D; induction l as [|f l IH]; intros done D Hm Hwf HD.
  - cbn. rewrite Z.add_0_r. reflexivity.
  - inversion Hwf as [|f' l' [Hd [Hf [Hq Hs]]] Hwf']; subst.
    cbn [length] in HD. cbn [unmarshalFeatures length repeat].
    rewrite cutAndAdvance_ok by lia. cbn [bind].
    unfold resliceTo. rewrite !reslice_ok by (cbn [s_cap]; lia).
    cbn [bind s_arr s_off s_len s_cap].
    rewrite (Uint16_at _ _ D _ Hm _ 0%nat (dist5p f));
      [ cbn [bind] | reflexivity | cbn [s_len]; lia | cbn [s_off]; lia
      | reflexivity | assumption ].
    rewrite (Uint16_at _ _ D _ Hm _ 2%nat (fraglen f));
      [ cbn [bind] | reflexivity | cbn [s_len]; lia | cbn [s_off]; lia
      | reflexivity | assumption ].
    rewrite (loadByte_at _ _ D _ Hm _ 4 4%nat (qual f));
      [ cbn [bind] | reflexivity | cbn [s_len]; lia | cbn [s_off]; lia
      | reflexivity ].
    rewrite (loadByte_at _ _ D _ Hm _ 5 5%nat (strand f));
      [ cbn [bind] | reflexivity | cbn [s_len]; lia | cbn [s_off]; lia
      | reflexivity ].
    rewrite !modNth_frontier.
    replace (setStrand (strand f) (setQual (qual f)
               (setFraglen (fraglen f) (setDist5p (dist5p f) zeroFeatures))))
      with f by (destruct f; reflexivity).
    replace (done ++ f :: repeat zeroFeatures (length l))
      with ((done ++ [f]) ++ repeat zeroFeatures (length l))
      by (rewrite <- app_assoc; reflexivity).
    replace (S (length done)) with (length (done ++ [f]))
      by (rewrite length_app; cbn [length]; lia).
    replace (Z.of_nat (length D) + 6)
      with (Z.of_nat (length (D ++ wireFeature f)))
      by (rewrite length_app, length_wireFeature; lia).
    rewrite (IH (done ++ [f]) (D ++ wireFeature f)).
    + rewrite <- app_assoc. cbn [app].
      rewrite length_app, length_wireFeature. f_equal. f_equal. lia.
    + rewrite Hm. unfold wireFeatures. cbn [flat_map].
      rewrite <- !app_assoc. reflexivity.
    + assumption.
    + rewrite length_app, length_wireFeature. lia.
Qed.

Lemma fieldsPresent_storePerRead (src : pileupRow) (bs : list nat) (dst : pileupRow) :
  fieldsPresent (storePerRead src bs dst) = fieldsPresent dst.
Proof using Type.
  revert dst; induction bs as [|b bs IH]; intros dst; [reflexivity|].
  unfold storePerRead in *. cbn [fold_left]. rewrite IH.
  destruct (hasField (fieldsPresent src) (perReadBit b)); reflexivity.
Qed.

Lemma unmarshalPerRead_wire (pr : pileupRow) (bs : list nat) (pr0 : pileupRow)
    (D T : list Z) :
  nth_error m a = Some (D ++ flat_map (wirePerRead pr) bs ++ T) ->
  fieldsPresent pr0 = fieldsPresent pr ->
  (forall b, In b bs -> hasField (fieldsPresent pr) (perReadBit b) = true ->
             lenFeatures (perReadAt (payload pr) b) < 2 ^ 32) ->
  (forall b, Forall wfFeatures (elems (perReadAt (payload pr) b))) ->
  Z.of_nat (length D) + Z.of_nat (length (flat_map (wirePerRead pr) bs)) <= L ->
  unmarshalPerRead m (mkSlice a 0 L C) pr0 (Z.of_nat (length D)) bs
  = Ok (storePerRead pr bs pr0,
        Z.of_nat (length D) + Z.of_nat (length (flat_map (wirePerRead pr) bs))).
Proof using HL.
  revert pr0 D; induction bs as [|b bs IH]; intros pr0 D Hm Hfp Hfit Hwf HD.
  - cbn. rewrite Z.add_0_r. reflexivity.
  - cbn [unmarshalPerRead flat_map] in *. rewrite length_app in HD.
    unfold storePerRead; cbn [fold_left]; fold (storePerRead pr bs).
    rewrite Hfp.
    destruct (hasField (fieldsPresent pr) (perReadBit b)) eqn:E.
    + assert (Hw : wirePerRead pr b
                   = le32 (u32 (lenFeatures (perReadAt (payload pr) b)))
                       ++ wireFeatures (elems (perReadAt (payload pr) b)))
        by (unfold wirePerRead; rewrite E; reflexivity).
      assert (Hlen : isU32 (lenFeatures (perReadAt (payload pr) b))).
      { split; [unfold lenFeatures; lia | apply Hfit; [left; reflexivity | exact E]]. }
      rewrite Hw in *. rewrite (u32_small _ Hlen) in *.
      rewrite length_app, length_le32, length_wireFeatures in HD.
      set (l := elems (perReadAt (payload pr) b)) in *.
      rewrite cutAndAdvance_ok by lia. cbn [bind].
      rewrite (Uint32_at _ _ D _ Hm _ 0%nat (lenFeatures (perReadAt (payload pr) b)));
        [ cbn [bind] | reflexivity | cbn [s_len]; lia | cbn [s_off]; lia
        | reflexivity | assumption ].
      unfold lenFeatures. fold l. rewrite Nat2Z.id, repeat_length.
      replace (Z.of_nat (length D) + 4)
        with (Z.of_nat (length (D ++ le32 (Z.of_nat (length l)))))
        by (rewrite length_app, length_le32; lia).
      assert (HF := unmarshalFeatures_wire l [] (D ++ le32 (Z.of_nat (length l)))
                      (flat_map (wirePerRead pr) bs ++ T)).
      cbn [app] in HF. change (length (@nil perReadFeatures)) with 0%nat in HF.
      rewrite HF; clear HF.
      * cbn [bind].
        replace (Z.of_nat (length (D ++ le32 (Z.of_nat (length l))))
                 + 6 * Z.of_nat (length l))
          with (Z.of_nat (length ((D ++ le32 (Z.of_nat (length l))) ++ wireFeatures l)))
          by (rewrite !length_app, length_le32, length_wireFeatures; lia).
        rewrite (IH (setPerRead b (features l) pr0)
                    ((D ++ le32 (Z.of_nat (length l))) ++ wireFeatures l)).
        -- f_equal. f_equal.
           rewrite !length_app, length_le32, length_wireFeatures. lia.
        -- rewrite Hm. unfold lenFeatures. fold l. rewrite <- !app_assoc. reflexivity.
        -- exact Hfp.
        -- intros b' Hb'. apply Hfit. right. exact Hb'.
        -- exact Hwf.
        -- rewrite !length_app, length_le32, length_wireFeatures. lia.
      * rewrite Hm. unfold lenFeatures. fold l. rewrite <- !app_assoc. reflexivity.
      * apply Hwf.
      * rewrite length_app, length_le32. lia.
    + assert (Hw : wirePerRead pr b = [])
        by (unfold wirePerRead; rewrite E; reflexivity).
      rewrite Hw in *. cbn [app length] in *.
      apply IH; try assumption; try lia.
      intros b' Hb'. apply Hfit. right. exact Hb'.
Qed.
End Decoder.

(** ** Well-formed rows *)

Lemma wfRow_counts (pr : pileupRow) (b : nat) :
  wfRow pr -> isU32 (count0 (payload pr) b) /\ isU32 (count1 (payload pr) b).
Proof.
  intros Hwf. unfold count0, count1.
  destruct (nth_in_or_default b (counts (payload pr)) (0, 0)) as [Hin | ->].
  - exact (proj1 (Forall_forall _ _) (wf_counts pr Hwf) _ Hin).
  - cbn. unfold isU32. lia.
Qed.

Lemma wfRow_perRead (pr : pileupRow) (b : nat) :
  wfRow pr -> Forall wfFeatures (elems (perReadAt (payload pr) b)).
Proof.
  intros Hwf. unfold perReadAt.
  destruct (nth_in_or_default b (perRead (payload pr)) nilFeatures) as [Hin | ->].
  - exact (proj1 (Forall_forall _ _) (wf_perRead pr Hwf) _ Hin).
  - constructor.
Qed.

(** The assignments of the decoder, from the zero payload, yield [decodedRow]. *)
Lemma stores_decodedRow (pr : pileupRow) :
  wfRow pr ->
  storePerRead pr (seq 0 pileup.NBase)
    (if hasField (fieldsPresent pr) fieldCounts
     then storeCounts pr (setDepth (depth (payload pr))
            (mkRow (fieldsPresent pr) (refID pr) (pos pr) zeroPayload))
     else setDepth (depth (payload pr))
            (mkRow (fieldsPresent pr) (refID pr) (pos pr) zeroPayload))
  = decodedRow pr.
Proof.
  intros Hwf. pose proof (wf_counts_len pr Hwf) as Hc.
  unfold decodedRow, storePerRead, storeCounts, count0, count1.
  destruct pr as [fp rid p [d cs prd]]. cbn [payload counts perRead depth fieldsPresent refID pos] in *.
  destruct cs as [|[a0 a1] [|[c0 c1] [|[g0 g1] [|[t0 t1] [|[x0 x1] [|? ?]]]]]];
    try discriminate Hc.
  cbn [seq pileup.NBase fold_left map].
  destruct (hasField fp fieldCounts), (hasField fp (perReadBit 0)),
    (hasField fp (perReadBit 1)), (hasField fp (perReadBit 2)),
    (hasField fp (perReadBit 3)); reflexivity.
Qed.

Lemma rowEq_decodedRow (pr : pileupRow) : rowEq (decodedRow pr) (canon pr).
Proof.
  unfold rowEq, decodedRow, canon. cbn.
  repeat split; try reflexivity.
  repeat match goal with
         | |- context [hasField ?x ?y] => destruct (hasField x y)
         end; reflexivity.
Qed.

(** The decoder reads back the row from any buffer that starts with its wire
    format. *)
Lemma unmarshalPileupRow_wire (pr : pileupRow) (m : mem) (a : nat) (L C : Z)
    (T : list Z) :
  nth_error m a = Some (wireFormat pr ++ T) ->
  Z.of_nat (length (wireFormat pr)) <= L -> L <= C ->
  wfRow pr -> lensFit pr ->
  unmarshalPileupRow m (mkSlice a 0 L C) = Ok (decodedRow pr, nilError).
Proof.
  intros Hm HL HC Hwf Hfit.
  assert (HL' : 0 <= L <= C) by lia.
  unfold wireFormat in *. rewrite !length_app, length_wireHeader in HL.
  unfold unmarshalPileupRow.
  assert (HH := unmarshalHeader_wire m a L C HL' pr []
             ((if hasField (fieldsPresent pr) fieldCounts then wireCounts pr else [])
                ++ flat_map (wirePerRead pr) (seq 0 pileup.NBase) ++ T)).
  cbn [app length] in HH. change (Z.of_nat 0) with 0 in HH.
  rewrite HH;
    [ | rewrite Hm, <- !app_assoc; reflexivity
      | lia | lia | apply Hwf | apply Hwf | apply Hwf | apply Hwf ].
  clear HH.
  cbn [bind length]. cbn [setDepth fieldsPresent].
  rewrite <- (stores_decodedRow pr Hwf).
  change (0 + 16) with (Z.of_nat (length (wireHeader pr))).
  destruct (hasField (fieldsPresent pr) fieldCounts) eqn:Ec.
  - rewrite length_wireCounts in HL.
    rewrite (unmarshalCounts_wire m a L C HL' pr _ (wireHeader pr)
               (flat_map (wirePerRead pr) (seq 0 pileup.NBase) ++ T));
      [ | rewrite Hm, <- !app_assoc; reflexivity
        | rewrite length_wireHeader; lia | rewrite length_wireHeader; lia
        | intros b; apply wfRow_counts; exact Hwf ].
    cbn [bind]. change (fieldsPresent (storeCounts pr _)) with (fieldsPresent pr).
    destruct (hasField (fieldsPresent pr) fieldPerReadAny) eqn:Ea.
    + replace (Z.of_nat (length (wireHeader pr)) + 40)
        with (Z.of_nat (length (wireHeader pr ++ wireCounts pr)))
        by (rewrite length_app, length_wireHeader, length_wireCounts; lia).
      rewrite (unmarshalPerRead_wire m a L C HL' pr _ _ (wireHeader pr ++ wireCounts pr) T);
        [ reflexivity
        | rewrite Hm, <- !app_assoc; reflexivity
        | reflexivity
        | intros b Hb; apply Hfit; apply in_seq in Hb; lia
        | intros b; apply wfRow_perRead; exact Hwf
        | rewrite length_app, length_wireHeader, length_wireCounts; lia ].
    + cbn [bind]. unfold storePerRead. cbn [seq pileup.NBase fold_left].
      rewrite !(perReadAny_unset _ _ Ea) by (unfold pileup.NBase; lia).
      reflexivity.
  - cbn [bind app length] in *.
    change (fieldsPresent (setDepth _ _)) with (fieldsPresent pr).
    destruct (hasField (fieldsPresent pr) fieldPerReadAny) eqn:Ea.
    + rewrite (unmarshalPerRead_wire m a L C HL' pr _ _ (wireHeader pr) T);
        [ reflexivity
        | rewrite Hm, <- !app_assoc; reflexivity
        | reflexivity
        | intros b Hb; apply Hfit; apply in_seq in Hb; lia
        | intros b; apply wfRow_perRead; exact Hwf
        | rewrite length_wireHeader; lia ].
    + cbn [bind]. unfold storePerRead. cbn [seq pileup.NBase fold_left].
      rewrite !(perReadAny_unset _ _ Ea) by (unfold pileup.NBase; lia).
      reflexivity.
Qed.

(** ** The two paths of the encoder: a fresh buffer, or the scratch buffer *)

(** The buffer returned when the scratch buffer is too short. *)
Lemma marshal_fresh (scratch : bytes) (pr : pileupRow) :
  Z.of_nat (length (vis scratch)) < bytesReqOf pr ->
  marshal scratch pr
  = Ok (mkHeap pr [bytesArray scratch; wireFormat pr],
        (mkSlice 1 0 (bytesReqOf pr) (bytesReqOf pr), nilError)).
Proof.
  intros Hlt. unfold marshal, marshalPileupRow, callHeap, bytesSlice, makeBytes.
  cbn [h_row h_mem s_len].
  destruct (Z.ltb_spec (Z.of_nat (length (vis scratch))) (bytesReqOf pr)); [|lia].
  cbn [app length].
  pose proof (bytesReqOf_min pr) as Hmin.
  rewrite (marshalInto_written pr _ 1 (repeat 0 (Z.to_nat (bytesReqOf pr)))
             (bytesReqOf pr) (bytesReqOf pr));
    [ | reflexivity | rewrite repeat_length; lia | lia | lia ].
  unfold written, writtenMem. cbn [updNth].
  rewrite skipn_all2, app_nil_r; [reflexivity|].
  rewrite repeat_length, bytesReqOf_wireFormat, Nat2Z.id. lia.
Qed.

(** The buffer returned when the scratch buffer is long enough. *)
Lemma marshal_reuse (scratch : bytes) (pr : pileupRow) :
  bytesReqOf pr <= Z.of_nat (length (vis scratch)) ->
  marshal scratch pr
  = Ok (mkHeap pr [wireFormat pr
                     ++ skipn (length (wireFormat pr)) (bytesArray scratch)],
        (bytesSlice scratch, nilError)).
Proof.
  intros Hle. unfold marshal, marshalPileupRow, callHeap.
  cbn [h_row h_mem]. unfold bytesSlice at 1. cbn [s_len].
  destruct (Z.ltb_spec (Z.of_nat (length (vis scratch))) (bytesReqOf pr)); [lia|].
  unfold bytesSlice.
  rewrite (marshalInto_written pr _ 0 (bytesArray scratch));
    [ reflexivity | reflexivity | reflexivity | | exact Hle ].
  unfold bytesArray. rewrite length_app. lia.
Qed.

(** The encoder always returns, and what it returns. *)
Lemma marshal_cases (scratch : bytes) (pr : pileupRow) :
  marshal scratch pr
  = if Z.of_nat (length (vis scratch)) <? bytesReqOf pr
    then Ok (mkHeap pr [bytesArray scratch; wireFormat pr],
             (mkSlice 1 0 (bytesReqOf pr) (bytesReqOf pr), nilError))
    else Ok (mkHeap pr [wireFormat pr
                          ++ skipn (length (wireFormat pr)) (bytesArray scratch)],
             (bytesSlice scratch, nilError)).
Proof.
  destruct (Z.ltb_spec (Z.of_nat (length (vis scratch))) (bytesReqOf pr)).
  - now apply marshal_fresh.
  - now apply marshal_reuse.
Qed.

(** The bytes of the returned slice: the wire format, then what the scratch
    buffer held between the required size and its length. *)
Lemma marshalBytes_cases (scratch : bytes) (pr : pileupRow) :
  marshalBytes scratch pr
  = Ok (wireFormat pr ++ skipn (length (wireFormat pr)) (vis scratch)).
Proof.
  unfold marshalBytes. rewrite marshal_cases.
  destruct (Z.ltb_spec (Z.of_nat (length (vis scratch))) (bytesReqOf pr)) as [Hlt|Hge];
    cbn [bind h_mem]; unfold contents, bytesSlice; cbn [s_len s_off s_arr nth];
    change (Z.to_nat 0) with 0%nat; cbn [skipn];
    rewrite bytesReqOf_wireFormat in *.
  - rewrite Nat2Z.id, firstn_all.
    rewrite skipn_all2 by lia. now rewrite app_nil_r.
  - rewrite Nat2Z.id.
    unfold bytesArray. rewrite skipn_app.
    replace (length (wireFormat pr) - length (vis scratch))%nat with 0%nat by lia.
    cbn [skipn]. rewrite !app_assoc.
    rewrite firstn_app.
    replace (length (vis scratch)
             - length (wireFormat pr ++ skipn (length (wireFormat pr)) (vis scratch)))%nat
      with 0%nat by (rewrite length_app, length_skipn; lia).
    cbn [firstn]. rewrite app_nil_r. f_equal.
    apply firstn_all2. rewrite length_app, length_skipn. lia.
Qed.

(** ** Round trip *)

Lemma roundTrip_decodedRow (scratch : bytes) (pr : pileupRow) :
  wfRow pr -> lensFit pr ->
  roundTrip scratch pr = Ok (decodedRow pr, nilError).
Proof.
  intros Hwf Hfit. unfold roundTrip. rewrite marshal_cases.
  destruct (Z.ltb_spec (Z.of_nat (length (vis scratch))) (bytesReqOf pr)) as [Hlt|Hge];
    cbn [bind h_mem].
  - apply (unmarshalPileupRow_wire pr _ 1 _ _ []); try assumption.
    + cbn [nth_error]. now rewrite app_nil_r.
    + rewrite bytesReqOf_wireFormat. lia.
    + lia.
  - unfold bytesSlice.
    apply (unmarshalPileupRow_wire pr _ 0 _ _
             (skipn (length (wireFormat pr)) (bytesArray scratch)));
      try assumption.
    + reflexivity.
    + rewrite <- bytesReqOf_wireFormat. exact Hge.
    + unfold bytesArray. rewrite length_app. lia.
Qed.

(** ** What every run of the decoder that returns has done *)

Ltac binv H :=
  let x := fresh "x" in
  let Hx := fresh "Hx" in
  apply bind_inv in H; destruct H as (x & Hx & H).

Lemma nth_updNth_neq {A : Type} (n k : nat) (x d : A) (l : list A) :
  n <> k -> nth k (updNth n x l) d = nth k l d.
Proof.
  revert n k; induction l as [|z l IH]; intros [|n] [|k] H; simpl;
    try reflexivity; try congruence.
  apply IH; congruence.
Qed.

Lemma reslice_inv (s p : slice) (lo hi : Z) :
  reslice s lo hi = Ok p ->
  p = mkSlice (s_arr s) (s_off s + lo) (hi - lo) (s_cap s - lo).
Proof.
  unfold reslice. destruct ((0 <=? lo) && (lo <=? hi) && (hi <=? s_cap s));
    intros H; [now inversion H | discriminate].
Qed.

Lemma cutAndAdvance_inv (s p : slice) (offset n o' : Z) :
  cutAndAdvance offset s n = Ok (o', p) ->
  o' = offset + n /\ s_arr p = s_arr s /\ s_off p = s_off s + offset
  /\ s_len p = n.
Proof.
  unfold cutAndAdvance, resliceFrom, resliceTo. intros H.
  binv H. binv H. apply reslice_inv in Hx, Hx0. inversion H; subst.
  cbn. repeat split; lia.
Qed.

(** The error result of the decoder is nil whenever it returns. *)
Lemma unmarshalPileupRow_error (m : mem) (in_ : slice) (r : pileupRow) (e : error) :
  unmarshalPileupRow m in_ = Ok (r, e) -> e = nilError.
Proof.
  unfold unmarshalPileupRow. intros H.
  binv H. destruct x as [pr1 o1]. binv H. destruct x as [pr2 o2].
  binv H. destruct x as [pr3 o3]. now inversion H.
Qed.

Lemma unmarshalPerRead_frame (m : mem) (in_ : slice) (bs : list nat)
    (pr0 r : pileupRow) (o o' : Z) :
  unmarshalPerRead m in_ pr0 o bs = Ok (r, o') ->
  fieldsPresent r = fieldsPresent pr0 /\
  forall b, hasField (fieldsPresent pr0) (perReadBit b) = false ->
            perReadAt (payload r) b = perReadAt (payload pr0) b.
Proof.
  revert pr0 o; induction bs as [|b0 bs IH]; intros pr0 o H.
  - inversion H; subst. split; [reflexivity | intros; reflexivity].
  - cbn [unmarshalPerRead] in H.
    destruct (hasField (fieldsPresent pr0) (perReadBit b0)) eqn:E.
    + binv H. destruct x as [o1 lenSlice]. binv H. binv H.
      destruct x0 as [o2 nf].
      apply IH in H. destruct H as [Hfp Hrest]. cbn [setPerRead fieldsPresent] in *.
      split; [exact Hfp|].
      intros b Hb. rewrite Hrest by exact Hb.
      unfold perReadAt. cbn [payload perRead].
      apply nth_updNth_neq. intros ->. congruence.
    + apply IH in H. exact H.
Qed.

Lemma unmarshalCounts_frame (m : mem) (in_ : slice) (pr0 r : pileupRow) (o o' : Z) :
  unmarshalCounts m in_ pr0 o = Ok (r, o') ->
  fieldsPresent r = fieldsPresent pr0 /\
  perRead (payload r) = perRead (payload pr0).
Proof.
  unfold unmarshalCounts. intros H.
  binv H. destruct x as [o1 inCounts].
  do 20 binv H. inversion H; subst. split; reflexivity.
Qed.

Lemma unmarshalHeader_frame (m : mem) (a : nat) (L C : Z) (v : Z) (T : list Z)
    (r : pileupRow) (o' : Z) :
  nth_error m a = Some (le32 v ++ T) -> isU32 v ->
  unmarshalHeader m (mkSlice a 0 L C) 0 = Ok (r, o') ->
  fieldsPresent r = v /\
  perRead (payload r) = repeat nilFeatures pileup.NBase.
Proof.
  intros Hm Hv H. unfold unmarshalHeader in H.
  binv H. destruct x as [o1 inStart].
  apply cutAndAdvance_inv in Hx. destruct Hx as (-> & Harr & Hoff & Hlen).
  binv H. unfold resliceTo in Hx. apply reslice_inv in Hx.
  rewrite (Uint32_at m a [] (le32 v ++ T) Hm x 0%nat v) in H;
    [ | subst x; cbn; exact Harr | subst x; cbn; lia
      | subst x; cbn in *; lia | reflexivity | exact Hv ].
  cbn [bind] in H. do 6 binv H. inversion H; subst.
  split; reflexivity.
Qed.

Lemma unmarshalPileupRow_frame (m : mem) (a : nat) (L C : Z) (v : Z) (T : list Z)
    (r : pileupRow) (e : error) :
  nth_error m a = Some (le32 v ++ T) -> isU32 v ->
  unmarshalPileupRow m (mkSlice a 0 L C) = Ok (r, e) ->
  fieldsPresent r = v /\
  forall b, hasField v (perReadBit b) = false ->
            perReadAt (payload r) b = nilFeatures.
Proof.
  intros Hm Hv H. unfold unmarshalPileupRow in H.
  binv H. destruct x as [pr1 o1].
  apply (unmarshalHeader_frame m a L C v T) in Hx; [|assumption|assumption].
  destruct Hx as [Hfp1 Hpr1].
  apply bind_inv in H. destruct H as ([pr2 o2] & Hc & H).
  apply bind_inv in H. destruct H as ([pr3 o3] & Hp & H).
  inversion H; subst r e; clear H.
  assert (H2 : fieldsPresent pr2 = v /\ perRead (payload pr2) = repeat nilFeatures pileup.NBase).
  { destruct (hasField (fieldsPresent pr1) fieldCounts).
    - apply unmarshalCounts_frame in Hc. destruct Hc as [-> ->]. now split.
    - inversion Hc; subst. now split. }
  destruct H2 as [Hfp2 Hpr2].
  assert (Hnil : forall b, perReadAt (payload pr2) b = nilFeatures).
  { intros b. unfold perReadAt. rewrite Hpr2.
    destruct b as [|[|[|[|b]]]]; cbn; try reflexivity. destruct b; reflexivity. }
  destruct (hasField (fieldsPresent pr2) fieldPerReadAny).
  - apply unmarshalPerRead_frame in Hp. destruct Hp as [Hfp3 Hrest].
    split; [congruence|].
    intros b Hb. rewrite Hrest; [apply Hnil | now rewrite Hfp2].
  - inversion Hp; subst. split; [congruence | intros; apply Hnil].
Qed.

(** * The statements of the specification *)

(** ** Encoding cannot fail *)

(** C7: for every row and every scratch buffer, [marshalPileupRow] returns
    (it does not panic), and the error it returns is nil. *)
Theorem marshalPileupRow_error_nil (scratch : bytes) (pr : pileupRow) :
  exists h t, marshal scratch pr = Ok (h, (t, nilError)).
Proof.
  rewrite marshal_cases.
  destruct (Z.of_nat (length (vis scratch)) <? bytesReqOf pr); eauto.
Qed.

(** ** The input row is not written *)

(** C8: for every row and every scratch buffer, the row behind [p] is the same
    after the call as before it: every field, every count and every per-read
    list is unchanged. *)
Theorem marshalPileupRow_row_unchanged (scratch : bytes) (pr : pileupRow) :
  exists h t e,
    marshal scratch pr = Ok (h, (t, e)) /\ h_row h = pr.
Proof.
  rewrite marshal_cases.
  destruct (Z.of_nat (length (vis scratch)) <? bytesReqOf pr);
    do 3 eexists; split; reflexivity.
Qed.

(** ** Which buffer is returned *)

(** C9: when the scratch buffer is at least as long as the required size, the
    call allocates nothing, writes the encoding at the front of the scratch
    array, leaves the bytes behind the required size as they were, and returns
    the scratch slice itself, with the length of the scratch buffer.  Otherwise
    it leaves the scratch array as it was and returns a slice of a new array,
    of exactly the required length, that holds the encoding. *)
Theorem marshalPileupRow_buffer (scratch : bytes) (pr : pileupRow) :
  exists h t,
    marshal scratch pr = Ok (h, (t, nilError)) /\
    if bytesReqOf pr <=? Z.of_nat (length (vis scratch)) then
      t = bytesSlice scratch /\
      s_len t = Z.of_nat (length (vis scratch)) /\
      exists arr,
        h_mem h = [arr] /\
        firstn (Z.to_nat (bytesReqOf pr)) arr = wireFormat pr /\
        skipn (Z.to_nat (bytesReqOf pr)) arr
        = skipn (Z.to_nat (bytesReqOf pr)) (bytesArray scratch)
    else
      t = mkSlice 1 0 (bytesReqOf pr) (bytesReqOf pr) /\
      exists arr,
        h_mem h = [bytesArray scratch; arr] /\
        Z.of_nat (length arr) = bytesReqOf pr /\
        arr = wireFormat pr.
Proof.
  rewrite marshal_cases.
  destruct (Z.ltb_spec (Z.of_nat (length (vis scratch))) (bytesReqOf pr)) as [Hlt|Hge];
    do 2 eexists; (split; [reflexivity|]).
  - destruct (Z.leb_spec (bytesReqOf pr) (Z.of_nat (length (vis scratch)))); [lia|].
    split; [reflexivity|]. eexists. split; [reflexivity|].
    split; [|reflexivity]. now rewrite bytesReqOf_wireFormat.
  - destruct (Z.leb_spec (bytesReqOf pr) (Z.of_nat (length (vis scratch)))); [|lia].
    split; [reflexivity|]. split; [reflexivity|].
    eexists. split; [reflexivity|].
    rewrite bytesReqOf_wireFormat, Nat2Z.id.
    assert (Hlen : (length (wireFormat pr) <= length (bytesArray scratch))%nat).
    { rewrite bytesReqOf_wireFormat in Hge. unfold bytesArray.
      rewrite length_app. lia. }
    split.
    + rewrite firstn_app, Nat.sub_diag, firstn_all. cbn [firstn].
      now rewrite app_nil_r.
    + rewrite skipn_app, Nat.sub_diag, skipn_all. reflexivity.
Qed.

(** ** The length of the result *)

(** The length of the returned slice, for every scratch buffer: the length
    formula, or the length of the scratch buffer when that is larger. *)
Lemma marshalBytes_length (scratch : bytes) (pr : pileupRow) :
  exists bs,
    marshalBytes scratch pr = Ok bs /\
    Z.of_nat (length bs)
    = Z.max (specLength pr) (Z.of_nat (length (vis scratch))).
Proof.
  rewrite marshalBytes_cases. eexists. split; [reflexivity|].
  rewrite length_app, length_skipn, <- length_wireFormat. lia.
Qed.

(** C2, where the code departs from it: with a scratch buffer of 20 bytes, the
    row whose required size is 16 bytes comes back as 20 bytes, the last four
    being what the scratch buffer held. *)
Theorem marshalPileupRow_oversized_scratch :
  specLength zeroRow = 16 /\
  marshalBytes (mkBytes (repeat 9 20) []) zeroRow
  = Ok (repeat 0 16 ++ [9; 9; 9; 9]).
Proof. split; vm_compute; reflexivity. Qed.

(** ** The scenario of the specification *)

(** C3: the row of the scenario encodes to the 66 bytes of the scenario, into
    any scratch buffer that is not longer than 66 bytes, and these 66 bytes
    decode to the row of the scenario. *)
Theorem scenario_bytes (scratch : bytes) :
  (length (vis scratch) <= 66)%nat ->
  marshalBytes scratch scenarioRow = Ok scenarioBytes /\
  length scenarioBytes = 66%nat /\
  unmarshal (mkBytes scenarioBytes []) = Ok (scenarioRow, nilError).
Proof.
  intros Hlen. split; [|split; vm_compute; reflexivity].
  rewrite marshalBytes_cases.
  change (wireFormat scenarioRow) with scenarioBytes.
  rewrite skipn_all2 by (change (length scenarioBytes) with 66%nat; exact Hlen).
  now rewrite app_nil_r.
Qed.

Lemma scenario_bytes_witness :
  (length (vis nilBytes) <= 66)%nat /\
  marshalBytes nilBytes scenarioRow = Ok scenarioBytes /\
  length scenarioBytes = 66%nat /\
  unmarshal (mkBytes scenarioBytes []) = Ok (scenarioRow, nilError).
Proof.
  assert (H : (length (vis nilBytes) <= 66)%nat) by (simpl; lia).
  split; [exact H | exact (scenario_bytes nilBytes H)].
Defined.

(** ** Input that is too short *)

(** C6: the decoder has no error path for truncated input.  Whenever it
    returns, its error result is nil; on a buffer whose array has fewer than
    16 bytes it panics in [cutAndAdvance]; on a 20-byte buffer whose bit of
    base A is set and whose stored list length is 1 it panics as well; and on a
    3-byte buffer with spare capacity it reads behind the length and returns a
    row with a nil error. *)
Theorem unmarshalPileupRow_no_truncation_error :
  (forall m in_ r e, unmarshalPileupRow m in_ = Ok (r, e) -> e = nilError) /\
  (forall input, (length (bytesArray input) < 16)%nat -> unmarshal input = Panic) /\
  unmarshal truncatedList = Panic /\
  unmarshal shortWithCapacity = Ok (zeroRow, nilError).
Proof.
  split; [exact unmarshalPileupRow_error|].
  split; [|split; vm_compute; reflexivity].
  intros input Hlen. unfold unmarshal, unmarshalPileupRow, unmarshalHeader.
  rewrite cutAndAdvance_panic; [reflexivity|].
  right. unfold bytesSlice. cbn [s_cap]. lia.
Qed.

Lemma unmarshalPileupRow_no_truncation_error_witness :
  (length (bytesArray truncatedHeader) < 16)%nat /\
  unmarshal truncatedHeader = Panic.
Proof.
  assert (H : (length (bytesArray truncatedHeader) < 16)%nat)
    by (simpl; lia).
  split; [exact H|].
  exact (proj1 (proj2 unmarshalPileupRow_no_truncation_error) _ H).
Defined.

(** ** Round trip of the rows whose lists fit their length field *)

Lemma wfRow_scenarioRow : wfRow scenarioRow.
Proof.
  constructor; cbn; unfold isU32; try lia; try reflexivity.
  - repeat constructor; cbn; lia.
  - repeat constructor; unfold isU16, isU8; cbn; lia.
Qed.

Lemma lensFit_scenarioRow : lensFit scenarioRow.
Proof.
  intros b Hb _. unfold pileup.NBase in Hb.
  destruct b as [|[|[|[|b]]]]; try lia; vm_compute; reflexivity.
Qed.

(** C1, amended: for every row whose fields are values of their types and
    whose per-read lists with a set bit have fewer than 2^32 records, and for
    every scratch buffer, decoding the encoding returns, with a nil error, a
    row equal field by field to the original in which the payload fields with
    an unset bit are at their zero value. *)
Theorem roundTrip_rowEq (scratch : bytes) (pr : pileupRow) :
  wfRow pr -> lensFit pr ->
  exists r',
    roundTrip scratch pr = Ok (r', nilError) /\ rowEq r' (canon pr).
Proof.
  intros Hwf Hfit. exists (decodedRow pr). split.
  - now apply roundTrip_decodedRow.
  - apply rowEq_decodedRow.
Qed.

Lemma roundTrip_rowEq_witness :
  wfRow scenarioRow /\ lensFit scenarioRow /\
  exists r',
    roundTrip nilBytes scenarioRow = Ok (r', nilError) /\
    rowEq r' (canon scenarioRow).
Proof.
  split; [exact wfRow_scenarioRow|].
  split; [exact lensFit_scenarioRow|].
  exact (roundTrip_rowEq nilBytes scenarioRow wfRow_scenarioRow lensFit_scenarioRow).
Defined.

(** ** Lists of 2^32 records *)

Lemma Forall_repeat {A : Type} (P : A -> Prop) (x : A) (n : nat) :
  P x -> Forall P (repeat x n).
Proof. intros H. induction n; cbn; constructor; assumption. Qed.

Lemma wfRow_rowWithA (l : list perReadFeatures) :
  Forall wfFeatures l -> wfRow (rowWithA l).
Proof.
  intros Hl. constructor; cbn; unfold isU32; try lia; try reflexivity.
  - repeat constructor; cbn; lia.
  - repeat constructor. exact Hl.
Qed.

Lemma lensFit_rowWithA_nil : lensFit (rowWithA []).
Proof.
  intros b Hb _. unfold pileup.NBase in Hb.
  destruct b as [|[|[|[|b]]]]; try lia; vm_compute; reflexivity.
Qed.

Lemma wireFormat_rowWithA (l : list perReadFeatures) :
  wireFormat (rowWithA l)
  = wireHeader (rowWithA []) ++ le32 (u32 (Z.of_nat (length l))) ++ wireFeatures l.
Proof.
  unfold wireFormat, wirePerRead. cbn [seq pileup.NBase flat_map].
  change (fieldsPresent (rowWithA l)) with fieldPerReadA.
  change (hasField fieldPerReadA fieldCounts) with false.
  change (hasField fieldPerReadA (perReadBit 0)) with true.
  change (hasField fieldPerReadA (perReadBit 1)) with false.
  change (hasField fieldPerReadA (perReadBit 2)) with false.
  change (hasField fieldPerReadA (perReadBit 3)) with false.
  cbn [app]. rewrite !app_nil_r. reflexivity.
Qed.

(** When the length of the list of base A is a multiple of 2^32, the stored
    length is 0 and the decoder returns an empty list for base A. *)
Lemma roundTrip_rowWithA_wrapped (l : list perReadFeatures) :
  u32 (Z.of_nat (length l)) = 0 ->
  roundTrip nilBytes (rowWithA l) = Ok (decodedRow (rowWithA []), nilError).
Proof.
  intros Hlen. unfold roundTrip.
  pose proof (bytesReqOf_min (rowWithA l)) as Hmin.
  rewrite marshal_fresh by (cbn [nilBytes vis length]; lia). cbn [bind h_mem].
  apply (unmarshalPileupRow_wire (rowWithA []) _ 1 _ _ (wireFeatures l)).
  - cbn [nth_error]. rewrite !wireFormat_rowWithA, Hlen.
    cbn [length]. change (u32 (Z.of_nat 0)) with 0.
    unfold wireFeatures at 1. cbn [flat_map]. rewrite <- !app_assoc.
    reflexivity.
  - rewrite bytesReqOf_wireFormat, !wireFormat_rowWithA.
    rewrite !length_app, !length_le32, !length_wireFeatures, !length_wireHeader.
    cbn [length]. lia.
  - lia.
  - apply wfRow_rowWithA. constructor.
  - exact lensFit_rowWithA_nil.
Qed.

Lemma length_longList : Z.of_nat (length longList) = 2 ^ 32.
Proof. unfold longList. rewrite repeat_length. apply Z2Nat.id. lia. Qed.

Lemma rowEq_rowWithA_nil (l : list perReadFeatures) :
  rowEq (decodedRow (rowWithA [])) (canon (rowWithA l)) -> l = [].
Proof.
  intros (_ & _ & _ & _ & _ & H).
  apply (f_equal (fun x => nth 0 x [])) in H.
  symmetry. exact H.
Qed.

Lemma longList_not_nil : longList <> [].
Proof.
  intros H. apply (f_equal (fun x => Z.of_nat (length x))) in H.
  rewrite length_longList in H. discriminate H.
Qed.

(** C1, as stated, fails: the row with only the bit of base A set and 2^32
    records for base A is a value of the Go type; its length field holds 0;
    the decoder returns a row whose list for base A is empty, which is not
    equal to the original. *)
Lemma roundTrip_longRow_not_equal :
  wfRow longRow /\
  exists r',
    roundTrip nilBytes longRow = Ok (r', nilError) /\
    elems (perReadAt (payload r') pileup.BaseA) = [] /\
    ~ rowEq r' (canon longRow).
Proof.
  unfold longRow. split.
  - apply wfRow_rowWithA. unfold longList. apply Forall_repeat.
    repeat split; cbn; lia.
  - exists (decodedRow (rowWithA [])). split; [|split].
    + apply roundTrip_rowWithA_wrapped.
      rewrite length_longList. reflexivity.
    + reflexivity.
    + intros H. apply rowEq_rowWithA_nil in H. exact (longList_not_nil H).
Qed.

(** ** A set bit with an empty list *)

Lemma wirePerRead_empty (pr : pileupRow) (b : nat) :
  hasField (fieldsPresent pr) (perReadBit b) = true ->
  elems (perReadAt (payload pr) b) = [] ->
  wirePerRead pr b = [0; 0; 0; 0].
Proof.
  intros Hbit Hnil. unfold wirePerRead, lenFeatures. rewrite Hbit, Hnil.
  reflexivity.
Qed.

Lemma seq_split_at (b : nat) :
  (b < pileup.NBase)%nat ->
  seq 0 pileup.NBase = seq 0 b ++ b :: seq (S b) (pileup.NBase - S b).
Proof.
  intros Hb. unfold pileup.NBase in *.
  destruct b as [|[|[|[|b]]]]; try lia; reflexivity.
Qed.

Lemma perReadAt_decodedRow (pr : pileupRow) (b : nat) :
  (b < pileup.NBase)%nat ->
  perReadAt (payload (decodedRow pr)) b
  = if hasField (fieldsPresent pr) (perReadBit b)
    then features (elems (perReadAt (payload pr) b))
    else nilFeatures.
Proof.
  intros Hb. unfold pileup.NBase in *.
  destruct b as [|[|[|[|b]]]]; try lia; reflexivity.
Qed.

(** C4, amended: in every row, a canonical base with its bit set and an empty
    list takes exactly four zero bytes in the encoding, at the place of that
    base, with no record byte behind them.  When moreover the fields of the
    row are values of their types and its per-read lists with a set bit have
    fewer than 2^32 records, the decoder returns for that base a list that is
    not nil and has no element, in a row where its bit is set. *)
Theorem empty_list_is_present (scratch : bytes) (pr : pileupRow) (b : nat) :
  (b < pileup.NBase)%nat ->
  hasField (fieldsPresent pr) (perReadBit b) = true ->
  elems (perReadAt (payload pr) b) = [] ->
  (exists before after,
     marshalBytes scratch pr = Ok (before ++ [0; 0; 0; 0] ++ after) /\
     before = wireHeader pr
                ++ (if hasField (fieldsPresent pr) fieldCounts
                    then wireCounts pr else [])
                ++ flat_map (wirePerRead pr) (seq 0 b) /\
     after = flat_map (wirePerRead pr) (seq (S b) (pileup.NBase - S b))
               ++ skipn (length (wireFormat pr)) (vis scratch)) /\
  (wfRow pr -> lensFit pr ->
   exists r',
     roundTrip scratch pr = Ok (r', nilError) /\
     hasField (fieldsPresent r') (perReadBit b) = true /\
     perReadAt (payload r') b = features []).
Proof.
  intros Hb Hbit Hnil. split.
  - do 2 eexists. split; [|split; reflexivity].
    rewrite marshalBytes_cases. f_equal.
    unfold wireFormat at 1. rewrite (seq_split_at b Hb), flat_map_app.
    cbn [flat_map]. rewrite (wirePerRead_empty pr b Hbit Hnil).
    rewrite <- !app_assoc. reflexivity.
  - intros Hwf Hfit.
    exists (decodedRow pr). split; [now apply roundTrip_decodedRow|].
    split; [exact Hbit|].
    rewrite perReadAt_decodedRow by exact Hb. now rewrite Hbit, Hnil.
Qed.

Lemma wfRow_emptyCRow : wfRow emptyCRow.
Proof.
  constructor; cbn; unfold isU32; try lia; try reflexivity;
    repeat constructor; cbn; lia.
Qed.

Lemma lensFit_emptyCRow : lensFit emptyCRow.
Proof.
  intros b Hb _. unfold pileup.NBase in Hb.
  destruct b as [|[|[|[|b]]]]; try lia; vm_compute; reflexivity.
Qed.

Lemma empty_list_is_present_witness :
  (pileup.BaseC < pileup.NBase)%nat /\
  hasField (fieldsPresent emptyCRow) (perReadBit pileup.BaseC) = true /\
  elems (perReadAt (payload emptyCRow) pileup.BaseC) = [] /\
  wfRow emptyCRow /\ lensFit emptyCRow /\
  (exists before after,
     marshalBytes nilBytes emptyCRow = Ok (before ++ [0; 0; 0; 0] ++ after) /\
     before = wireHeader emptyCRow
                ++ (if hasField (fieldsPresent emptyCRow) fieldCounts
                    then wireCounts emptyCRow else [])
                ++ flat_map (wirePerRead emptyCRow) (seq 0 pileup.BaseC) /\
     after = flat_map (wirePerRead emptyCRow)
               (seq (S pileup.BaseC) (pileup.NBase - S pileup.BaseC))
               ++ skipn (length (wireFormat emptyCRow)) (vis nilBytes)) /\
  exists r',
    roundTrip nilBytes emptyCRow = Ok (r', nilError) /\
    hasField (fieldsPresent r') (perReadBit pileup.BaseC) = true /\
    perReadAt (payload r') pileup.BaseC = features [].
Proof.
  assert (Hb : (pileup.BaseC < pileup.NBase)%nat) by (vm_compute; lia).
  split; [exact Hb|].
  split; [reflexivity|].
  split; [reflexivity|].
  split; [exact wfRow_emptyCRow|].
  split; [exact lensFit_emptyCRow|].
  split.
  - exact (proj1 (empty_list_is_present nilBytes emptyCRow pileup.BaseC
                    Hb eq_refl eq_refl)).
  - exact (proj2 (empty_list_is_present nilBytes emptyCRow pileup.BaseC
                    Hb eq_refl eq_refl) wfRow_emptyCRow lensFit_emptyCRow).
Defined.

(** ** An empty list behind a list of 2^32 records *)

Lemma wfRow_rowWithAC (l : list perReadFeatures) :
  Forall wfFeatures l -> wfRow (rowWithAC l).
Proof.
  intros Hl. constructor; cbn; unfold isU32; try lia; try reflexivity.
  - repeat constructor; cbn; lia.
  - repeat constructor. exact Hl.
Qed.

Lemma wfRow_shiftedRow : wfRow shiftedRow.
Proof.
  constructor; cbn; unfold isU32; try lia; try reflexivity.
  - repeat constructor; cbn; lia.
  - repeat constructor; unfold isU16, isU8; cbn; lia.
Qed.

Lemma lensFit_shiftedRow : lensFit shiftedRow.
Proof.
  intros b Hb _. unfold pileup.NBase in Hb.
  destruct b as [|[|[|[|b]]]]; try lia; vm_compute; reflexivity.
Qed.

Lemma wireFormat_rowWithAC (l : list perReadFeatures) :
  wireFormat (rowWithAC l)
  = wireHeader shiftedRow ++ le32 (u32 (Z.of_nat (length l)))
      ++ wireFeatures l ++ le32 0.
Proof.
  unfold wireFormat, wirePerRead. cbn [seq pileup.NBase flat_map].
  change (fieldsPresent (rowWithAC l)) with (Z.lor fieldPerReadA fieldPerReadC).
  change (hasField (Z.lor fieldPerReadA fieldPerReadC) fieldCounts) with false.
  change (hasField (Z.lor fieldPerReadA fieldPerReadC) (perReadBit 0)) with true.
  change (hasField (Z.lor fieldPerReadA fieldPerReadC) (perReadBit 1)) with true.
  change (hasField (Z.lor fieldPerReadA fieldPerReadC) (perReadBit 2)) with false.
  change (hasField (Z.lor fieldPerReadA fieldPerReadC) (perReadBit 3)) with false.
  cbn [app]. rewrite !app_nil_r, <- !app_assoc. reflexivity.
Qed.

(** When the list of base A starts with two records of dist5p 1 and its
    length is a multiple of 2^32, the decoder reads the length of the list of
    base C from the first record of base A. *)
Lemma roundTrip_rowWithAC_wrapped (l : list perReadFeatures) :
  u32 (Z.of_nat (length (mkFeatures 1 0 0 0 :: mkFeatures 1 0 0 0 :: l))) = 0 ->
  roundTrip nilBytes (rowWithAC (mkFeatures 1 0 0 0 :: mkFeatures 1 0 0 0 :: l))
  = Ok (decodedRow shiftedRow, nilError).
Proof.
  intros Hlen. unfold roundTrip.
  pose proof (bytesReqOf_min (rowWithAC (mkFeatures 1 0 0 0 :: mkFeatures 1 0 0 0 :: l)))
    as Hmin.
  rewrite marshal_fresh by (cbn [nilBytes vis length]; lia). cbn [bind h_mem].
  apply (unmarshalPileupRow_wire shiftedRow _ 1 _ _
           ([0; 0] ++ wireFeatures l ++ le32 0)).
  - cbn [nth_error]. rewrite wireFormat_rowWithAC, Hlen. reflexivity.
  - rewrite bytesReqOf_wireFormat, wireFormat_rowWithAC.
    rewrite !length_app, !length_le32, !length_wireFeatures, !length_wireHeader.
    change (length (wireFormat shiftedRow)) with 30%nat.
    cbn [length]. lia.
  - lia.
  - exact wfRow_shiftedRow.
  - exact lensFit_shiftedRow.
Qed.

Lemma length_wrapList : Z.of_nat (length wrapList) = 2 ^ 32.
Proof.
  unfold wrapList. cbn [length]. rewrite repeat_length.
  rewrite !Nat2Z.inj_succ, Z2Nat.id; lia.
Qed.

Lemma wfFeatures_wrapList : Forall wfFeatures wrapList.
Proof.
  assert (H : wfFeatures (mkFeatures 1 0 0 0))
    by (repeat split; cbn; lia).
  unfold wrapList. apply Forall_cons; [exact H|].
  apply Forall_cons; [exact H|]. apply Forall_repeat. exact H.
Qed.

Lemma fieldsPresent_rowWithAC (l : list perReadFeatures) :
  hasField (fieldsPresent (rowWithAC l)) (perReadBit pileup.BaseC) = true.
Proof. reflexivity. Qed.

Lemma perReadAt_rowWithAC (l : list perReadFeatures) :
  elems (perReadAt (payload (rowWithAC l)) pileup.BaseC) = [].
Proof. reflexivity. Qed.

(** C4, as stated, fails: in this row, a value of the Go type, the bit of base
    C is set and its list is empty, and the row that decoding the encoding
    returns has one record for base C. *)
Lemma roundTrip_wrapRow_not_empty :
  wfRow wrapRow /\
  hasField (fieldsPresent wrapRow) (perReadBit pileup.BaseC) = true /\
  elems (perReadAt (payload wrapRow) pileup.BaseC) = [] /\
  exists r',
    roundTrip nilBytes wrapRow = Ok (r', nilError) /\
    perReadAt (payload r') pileup.BaseC = features [mkFeatures 0 1 0 0].
Proof.
  unfold wrapRow. split; [|split; [|split]].
  - apply wfRow_rowWithAC. exact wfFeatures_wrapList.
  - apply fieldsPresent_rowWithAC.
  - apply perReadAt_rowWithAC.
  - exists (decodedRow shiftedRow). split; [|reflexivity].
    assert (H := roundTrip_rowWithAC_wrapped
                   (repeat (mkFeatures 1 0 0 0) (Z.to_nat (2 ^ 32 - 2)))).
    fold wrapList in H. apply H.
    rewrite length_wrapList. reflexivity.
Qed.

(** ** What every round trip that returns has kept *)

Lemma wireFormat_starts (pr : pileupRow) :
  exists rest, wireFormat pr = le32 (fieldsPresent pr) ++ rest.
Proof.
  unfold wireFormat, wireHeader. eexists. rewrite <- !app_assoc. reflexivity.
Qed.

(** Whenever decoding the encoding returns a row, the row has the mask of the
    original, and a nil list for every base whose bit is unset. *)
Lemma roundTrip_frame (scratch : bytes) (pr r' : pileupRow) (e : error) :
  isU32 (fieldsPresent pr) ->
  roundTrip scratch pr = Ok (r', e) ->
  fieldsPresent r' = fieldsPresent pr /\
  forall b, hasField (fieldsPresent pr) (perReadBit b) = false ->
            perReadAt (payload r') b = nilFeatures.
Proof.
  intros Hfp H. unfold roundTrip in H. rewrite marshal_cases in H.
  destruct (wireFormat_starts pr) as [rest Hrest].
  destruct (Z.of_nat (length (vis scratch)) <? bytesReqOf pr);
    cbn [bind h_mem] in H.
  - apply (unmarshalPileupRow_frame _ 1 _ _ (fieldsPresent pr) rest) in H;
      [exact H | cbn [nth_error]; now rewrite Hrest | exact Hfp].
  - unfold bytesSlice in H.
    apply (unmarshalPileupRow_frame _ 0 _ _ (fieldsPresent pr)
             (rest ++ skipn (length (wireFormat pr)) (bytesArray scratch))) in H;
      [exact H | cbn [nth_error]; now rewrite Hrest, <- app_assoc | exact Hfp].
Qed.

(** ** A list whose bit is unset *)

Lemma wirePerRead_setPerRead (pr : pileupRow) (b b' : nat) (s : featureSlice) :
  hasField (fieldsPresent pr) (perReadBit b) = false ->
  wirePerRead (setPerRead b s pr) b' = wirePerRead pr b'.
Proof.
  intros Hbit. unfold wirePerRead. cbn [setPerRead fieldsPresent].
  destruct (Nat.eq_dec b b') as [<-|Hne].
  - now rewrite Hbit.
  - unfold perReadAt. cbn [setPerRead payload perRead].
    now rewrite (nth_updNth_neq b b' s nilFeatures _ Hne).
Qed.

Lemma wireFormat_setPerRead (pr : pileupRow) (b : nat) (s : featureSlice) :
  hasField (fieldsPresent pr) (perReadBit b) = false ->
  wireFormat (setPerRead b s pr) = wireFormat pr.
Proof.
  intros Hbit. unfold wireFormat.
  rewrite (flat_map_ext _ _ (fun b' => wirePerRead_setPerRead pr b b' s Hbit)).
  reflexivity.
Qed.

(** C5: when the bit of a canonical base is unset, the encoding does not
    depend on the list of that base: putting any other list (the empty one
    among them) in its place gives the same bytes.  Whenever decoding the
    encoding returns a row, its list for that base is nil; and it does return a
    row when the per-read lists with a set bit have fewer than 2^32 records. *)
Theorem absent_list_is_ignored (scratch : bytes) (pr : pileupRow) (b : nat) :
  wfRow pr -> (b < pileup.NBase)%nat ->
  hasField (fieldsPresent pr) (perReadBit b) = false ->
  (forall s, marshalBytes scratch (setPerRead b s pr) = marshalBytes scratch pr) /\
  (forall r' e, roundTrip scratch pr = Ok (r', e) ->
                perReadAt (payload r') b = nilFeatures) /\
  (lensFit pr -> exists r', roundTrip scratch pr = Ok (r', nilError)).
Proof.
  intros Hwf Hb Hbit. split; [|split].
  - intros s. rewrite !marshalBytes_cases.
    now rewrite (wireFormat_setPerRead pr b s Hbit).
  - intros r' e H.
    apply (roundTrip_frame scratch pr r' e (wf_fieldsPresent pr Hwf)) in H.
    apply H. exact Hbit.
  - intros Hfit. exists (decodedRow pr). now apply roundTrip_decodedRow.
Qed.

Lemma wfRow_staleRow : wfRow staleRow.
Proof.
  constructor; cbn; unfold isU32; try lia; try reflexivity.
  - repeat constructor; cbn; lia.
  - repeat constructor; unfold isU16, isU8; cbn; lia.
Qed.

Lemma absent_list_is_ignored_witness :
  wfRow staleRow /\ (pileup.BaseA < pileup.NBase)%nat /\
  hasField (fieldsPresent staleRow) (perReadBit pileup.BaseA) = false /\
  (forall s, marshalBytes nilBytes (setPerRead pileup.BaseA s staleRow)
             = marshalBytes nilBytes staleRow) /\
  (forall r' e, roundTrip nilBytes staleRow = Ok (r', e) ->
                perReadAt (payload r') pileup.BaseA = nilFeatures) /\
  (lensFit staleRow -> exists r', roundTrip nilBytes staleRow = Ok (r', nilError)).
Proof.
  assert (Hb : (pileup.BaseA < pileup.NBase)%nat) by (vm_compute; lia).
  split; [exact wfRow_staleRow|].
  split; [exact Hb|].
  split; [reflexivity|].
  exact (absent_list_is_ignored nilBytes staleRow pileup.BaseA
           wfRow_staleRow Hb eq_refl).
Defined.

(** ** Bits of the mask beyond the five flags *)

Lemma hasField_agree (fp fp' mask : Z) :
  Z.land fp' definedFields = Z.land fp definedFields ->
  Z.land definedFields mask = mask ->
  hasField fp' mask = hasField fp mask.
Proof.
  intros Hagree Hmask. unfold hasField.
  rewrite <- Hmask, !Z.land_assoc, Hagree. reflexivity.
Qed.

Lemma hasField_agree_perRead (fp fp' : Z) (b : nat) :
  Z.land fp' definedFields = Z.land fp definedFields ->
  (b < pileup.NBase)%nat ->
  hasField fp' (perReadBit b) = hasField fp (perReadBit b).
Proof.
  intros Hagree Hb. apply hasField_agree; [exact Hagree|].
  unfold pileup.NBase in Hb.
  destruct b as [|[|[|[|b]]]]; try lia; reflexivity.
Qed.

Section UndefinedBits.

Variables (pr : pileupRow) (fp' : Z).
Hypothesis Hagree :
  Z.land fp' definedFields = Z.land (fieldsPresent pr) definedFields.

Lemma wirePerRead_setFieldsPresent (b : nat) :
  (b < pileup.NBase)%nat ->
  wirePerRead (setFieldsPresent fp' pr) b = wirePerRead pr b.
Proof using Hagree.
  intros Hb. unfold wirePerRead. cbn [setFieldsPresent fieldsPresent payload].
  now rewrite (hasField_agree_perRead _ _ b Hagree Hb).
Qed.

Lemma wireFormat_setFieldsPresent :
  wireFormat (setFieldsPresent fp' pr) = le32 fp' ++ skipn 4 (wireFormat pr).
Proof using Hagree.
  unfold wireFormat. cbn [seq pileup.NBase flat_map].
  rewrite !wirePerRead_setFieldsPresent by (unfold pileup.NBase; lia).
  cbn [setFieldsPresent fieldsPresent].
  rewrite (hasField_agree _ _ fieldCounts Hagree eq_refl).
  reflexivity.
Qed.

Lemma decodedRow_setFieldsPresent :
  decodedRow (setFieldsPresent fp' pr) = setFieldsPresent fp' (decodedRow pr).
Proof using Hagree.
  unfold decodedRow. cbn [seq pileup.NBase map].
  cbn [setFieldsPresent fieldsPresent refID pos payload].
  rewrite !(fun b Hb => hasField_agree_perRead _ _ b Hagree Hb)
    by (unfold pileup.NBase; lia).
  rewrite (hasField_agree _ _ fieldCounts Hagree eq_refl).
  reflexivity.
Qed.

Lemma wfRow_setFieldsPresent :
  isU32 fp' -> wfRow pr -> wfRow (setFieldsPresent fp' pr).
Proof using Type.
  intros Hfp Hwf. destruct Hwf. constructor; assumption.
Qed.

Lemma lensFit_setFieldsPresent :
  lensFit pr -> lensFit (setFieldsPresent fp' pr).
Proof using Hagree.
  intros Hfit b Hb Hbit. cbn [setFieldsPresent fieldsPresent payload] in *.
  apply Hfit; [exact Hb|].
  now rewrite <- (hasField_agree_perRead _ _ b Hagree Hb).
Qed.

End UndefinedBits.

(** C10: let a mask differ from the mask of a row in bits 5 to 31 only.  The
    two encodings differ in the four bytes of the mask only, which hold each
    mask as it is; whenever decoding the encoding returns a row, the row has
    the mask of the original, all 32 bits of it; and when the per-read lists
    with a set bit have fewer than 2^32 records, decoding returns the same
    payload for the two masks. *)
Theorem undefined_bits_are_kept (scratch : bytes) (pr : pileupRow) (fp' : Z) :
  wfRow pr -> isU32 fp' ->
  Z.land fp' definedFields = Z.land (fieldsPresent pr) definedFields ->
  (exists rest,
     marshalBytes scratch pr = Ok (le32 (fieldsPresent pr) ++ rest) /\
     marshalBytes scratch (setFieldsPresent fp' pr) = Ok (le32 fp' ++ rest)) /\
  (forall r' e, roundTrip scratch pr = Ok (r', e) ->
                fieldsPresent r' = fieldsPresent pr) /\
  (lensFit pr ->
   exists r',
     roundTrip scratch pr = Ok (r', nilError) /\
     roundTrip scratch (setFieldsPresent fp' pr)
     = Ok (setFieldsPresent fp' r', nilError)).
Proof.
  intros Hwf Hfp Hagree. split; [|split].
  - exists (skipn 4 (wireFormat pr)
            ++ skipn (length (wireFormat pr)) (vis scratch)).
    rewrite !marshalBytes_cases, (wireFormat_setFieldsPresent pr fp' Hagree).
    split.
    + rewrite app_assoc. reflexivity.
    + assert (Hlen : length (le32 fp' ++ skipn 4 (wireFormat pr))
                     = length (wireFormat pr)).
      { rewrite length_app, length_le32, length_skipn.
        pose proof (bytesReqOf_min pr) as Hmin.
        rewrite bytesReqOf_wireFormat in Hmin. lia. }
      rewrite Hlen, <- app_assoc. reflexivity.
  - intros r' e H.
    apply (roundTrip_frame scratch pr r' e (wf_fieldsPresent pr Hwf)) in H.
    apply H.
  - intros Hfit. exists (decodedRow pr). split.
    + now apply roundTrip_decodedRow.
    + rewrite <- (decodedRow_setFieldsPresent pr fp' Hagree).
      apply roundTrip_decodedRow.
      * now apply wfRow_setFieldsPresent.
      * now apply lensFit_setFieldsPresent.
Qed.

Lemma undefined_bits_are_kept_witness :
  wfRow scenarioRow /\ isU32 (2 ^ 31 + 64 + 3) /\
  Z.land (2 ^ 31 + 64 + 3) definedFields
  = Z.land (fieldsPresent scenarioRow) definedFields /\
  (exists rest,
     marshalBytes nilBytes scenarioRow
     = Ok (le32 (fieldsPresent scenarioRow) ++ rest) /\
     marshalBytes nilBytes (setFieldsPresent (2 ^ 31 + 64 + 3) scenarioRow)
     = Ok (le32 (2 ^ 31 + 64 + 3) ++ rest)) /\
  (forall r' e, roundTrip nilBytes scenarioRow = Ok (r', e) ->
                fieldsPresent r' = fieldsPresent scenarioRow) /\
  (lensFit scenarioRow ->
   exists r',
     roundTrip nilBytes scenarioRow = Ok (r', nilError) /\
     roundTrip nilBytes (setFieldsPresent (2 ^ 31 + 64 + 3) scenarioRow)
     = Ok (setFieldsPresent (2 ^ 31 + 64 + 3) r', nilError)).
Proof.
  assert (Hfp : isU32 (2 ^ 31 + 64 + 3)) by (unfold isU32; lia).
  split; [exact wfRow_scenarioRow|].
  split; [exact Hfp|].
  split; [reflexivity|].
  exact (undefined_bits_are_kept nilBytes scenarioRow (2 ^ 31 + 64 + 3)
           wfRow_scenarioRow Hfp eq_refl).
Defined.

(** * Further properties of the code *)

(** ** cutAndAdvance *)

(** X1: on a slice whose length does not exceed its capacity, a cut returns
    exactly when its start is within the length and its end within the
    capacity; it then returns the offset advanced by the piece length and the
    piece at the old offset.  Otherwise it panics. *)
Theorem cutAndAdvance_spec (s : slice) (offset n : Z) :
  s_len s <= s_cap s ->
  cutAndAdvance offset s n
  = if (0 <=? offset) && (offset <=? s_len s) && (0 <=? n)
       && (offset + n <=? s_cap s)
    then Ok (offset + n,
             mkSlice (s_arr s) (s_off s + offset) n (s_cap s - offset))
    else Panic.
Proof.
  intros Hlen. unfold cutAndAdvance, resliceFrom, resliceTo, reslice.
  destruct (Z.leb_spec 0 offset), (Z.leb_spec offset (s_len s)),
    (Z.leb_spec (s_len s) (s_cap s)); try lia; cbn [andb bind];
    try reflexivity.
  cbn [s_cap s_off s_arr s_len].
  destruct (Z.leb_spec 0 n), (Z.leb_spec n (s_cap s - offset)),
    (Z.leb_spec (offset + n) (s_cap s)); try lia; cbn [andb bind];
    try reflexivity.
  rewrite Z.add_0_r, !Z.sub_0_r. reflexivity.
Qed.

Lemma cutAndAdvance_spec_witness :
  s_len (mkSlice 0 0 3 16) <= s_cap (mkSlice 0 0 3 16) /\
  cutAndAdvance 0 (mkSlice 0 0 3 16) 16 = Ok (16, mkSlice 0 0 16 16) /\
  cutAndAdvance 16 (mkSlice 0 0 3 16) 0 = Panic.
Proof.
  assert (H : s_len (mkSlice 0 0 3 16) <= s_cap (mkSlice 0 0 3 16))
    by (simpl; lia).
  split; [exact H|]. split.
  - rewrite (cutAndAdvance_spec (mkSlice 0 0 3 16) 0 16 H). reflexivity.
  - rewrite (cutAndAdvance_spec (mkSlice 0 0 3 16) 16 0 H). reflexivity.
Defined.

Lemma cutAndAdvance_Ok (s p : slice) (o n o' : Z) :
  cutAndAdvance o s n = Ok (o', p) ->
  0 <= o <= s_len s /\ s_len s <= s_cap s /\ 0 <= n /\ o + n <= s_cap s /\
  o' = o + n /\ p = mkSlice (s_arr s) (s_off s + o) n (s_cap s - o).
Proof.
  unfold cutAndAdvance, resliceFrom, resliceTo, reslice. intros H.
  destruct (Z.leb_spec 0 o), (Z.leb_spec o (s_len s)),
    (Z.leb_spec (s_len s) (s_cap s)); cbn [andb bind] in H;
    try discriminate H.
  cbn [s_cap s_off s_arr s_len] in H.
  destruct (Z.leb_spec 0 n), (Z.leb_spec n (s_cap s - o));
    cbn [andb bind] in H; try discriminate H.
  inversion H; subst o' p.
  rewrite Z.add_0_r, !Z.sub_0_r. repeat split; lia.
Qed.

(** X2: two cuts in a row take adjacent pieces, in order: when both return,
    the second piece starts where the first ends, and one cut of the two
    lengths together returns the same final offset and a piece that starts
    with the first and has the length of both. *)
Theorem cutAndAdvance_twice (s p1 p2 : slice) (o o1 o2 n1 n2 : Z) :
  cutAndAdvance o s n1 = Ok (o1, p1) ->
  cutAndAdvance o1 s n2 = Ok (o2, p2) ->
  s_off p2 = s_off p1 + s_len p1 /\
  exists p,
    cutAndAdvance o s (n1 + n2) = Ok (o2, p) /\
    s_off p = s_off p1 /\ s_len p = s_len p1 + s_len p2.
Proof.
  intros H1 H2.
  apply cutAndAdvance_Ok in H1. destruct H1 as (Ho & Hlen & Hn1 & Hc1 & -> & ->).
  apply cutAndAdvance_Ok in H2. destruct H2 as (Ho1 & _ & Hn2 & Hc2 & -> & ->).
  cbn [s_off s_len]. split; [lia|].
  rewrite (cutAndAdvance_spec s o (n1 + n2) Hlen).
  destruct (Z.leb_spec 0 o), (Z.leb_spec o (s_len s)),
    (Z.leb_spec 0 (n1 + n2)), (Z.leb_spec (o + (n1 + n2)) (s_cap s));
    try lia; cbn [andb].
  exists (mkSlice (s_arr s) (s_off s + o) (n1 + n2) (s_cap s - o)).
  split; [|cbn [s_off s_len]; split; reflexivity].
  f_equal. f_equal. lia.
Qed.

Lemma cutAndAdvance_twice_witness :
  cutAndAdvance 0 (mkSlice 0 0 66 66) 16 = Ok (16, mkSlice 0 0 16 66) /\
  cutAndAdvance 16 (mkSlice 0 0 66 66) 40 = Ok (56, mkSlice 0 16 40 50) /\
  s_off (mkSlice 0 16 40 50) = s_off (mkSlice 0 0 16 66) + s_len (mkSlice 0 0 16 66) /\
  exists p,
    cutAndAdvance 0 (mkSlice 0 0 66 66) (16 + 40) = Ok (56, p) /\
    s_off p = s_off (mkSlice 0 0 16 66) /\
    s_len p = s_len (mkSlice 0 0 16 66) + s_len (mkSlice 0 16 40 50).
Proof.
  split; [reflexivity|]. split; [reflexivity|].
  exact (cutAndAdvance_twice (mkSlice 0 0 66 66) (mkSlice 0 0 16 66)
           (mkSlice 0 16 40 50) 0 16 56 16 40 eq_refl eq_refl).
Defined.

(** ** The layout of the encoding *)

(** X3: for every row and every scratch buffer, the returned bytes are the
    wire format of the specification's table (header; counts when their bit
    is set; for A, C, G, T in this order, length and records when the bit of
    the base is set), whose length is the length formula, followed by the
    bytes the scratch buffer held behind that length. *)
Theorem marshalPileupRow_layout (scratch : bytes) (pr : pileupRow) :
  marshalBytes scratch pr
  = Ok (wireFormat pr ++ skipn (Z.to_nat (specLength pr)) (vis scratch)) /\
  Z.of_nat (length (wireFormat pr)) = specLength pr /\
  bytesReqOf pr = specLength pr.
Proof.
  split; [|split].
  - rewrite marshalBytes_cases, <- length_wireFormat, Nat2Z.id. reflexivity.
  - apply length_wireFormat.
  - apply bytesReqOf_specLength.
Qed.

(** ** Payload fields whose bit is unset *)

Lemma rowEq_refl (r : pileupRow) : rowEq r r.
Proof. repeat split. Qed.

Lemma rowEq_sym (r1 r2 : pileupRow) : rowEq r1 r2 -> rowEq r2 r1.
Proof. intros (H1 & H2 & H3 & H4 & H5 & H6). repeat split; congruence. Qed.

Lemma rowEq_trans (r1 r2 r3 : pileupRow) :
  rowEq r1 r2 -> rowEq r2 r3 -> rowEq r1 r3.
Proof.
  intros (H1 & H2 & H3 & H4 & H5 & H6) (K1 & K2 & K3 & K4 & K5 & K6).
  repeat split; congruence.
Qed.

Lemma wirePerRead_canon (pr : pileupRow) (b : nat) :
  (b < pileup.NBase)%nat -> wirePerRead (canon pr) b = wirePerRead pr b.
Proof.
  intros Hb. unfold wirePerRead.
  change (fieldsPresent (canon pr)) with (fieldsPresent pr).
  destruct (hasField (fieldsPresent pr) (perReadBit b)) eqn:E; [|reflexivity].
  assert (Hp : perReadAt (payload (canon pr)) b = perReadAt (payload pr) b).
  { unfold pileup.NBase in Hb. unfold perReadAt at 1, canon.
    cbn [payload perRead seq map pileup.NBase].
    destruct b as [|[|[|[|b]]]]; try lia; cbn [nth]; now rewrite E. }
  now rewrite Hp.
Qed.

Lemma wireFormat_canon (pr : pileupRow) : wireFormat (canon pr) = wireFormat pr.
Proof.
  unfold wireFormat. cbn [seq pileup.NBase flat_map].
  rewrite !wirePerRead_canon by (unfold pileup.NBase; lia).
  change (fieldsPresent (canon pr)) with (fieldsPresent pr).
  change (wireHeader (canon pr)) with (wireHeader pr).
  destruct (hasField (fieldsPresent pr) fieldCounts) eqn:E; [|reflexivity].
  unfold wireCounts, count0, count1, canon. cbn [payload counts].
  rewrite E. reflexivity.
Qed.

(** X4: the encoding does not depend on what the row holds in the payload
    fields whose bit is unset: for every scratch buffer, the row and the row
    with these fields at their zero value (zero counts when the bit of Counts
    is unset, no list for a base whose bit is unset) give the same bytes. *)
Theorem marshalPileupRow_absent_fields (scratch : bytes) (pr : pileupRow) :
  marshalBytes scratch (canon pr) = marshalBytes scratch pr.
Proof. rewrite !marshalBytes_cases, wireFormat_canon. reflexivity. Qed.

(** ** Bytes behind the encoding *)

Lemma marshalBytes_nil (pr : pileupRow) :
  marshalBytes nilBytes pr = Ok (wireFormat pr).
Proof.
  rewrite marshalBytes_cases. cbn [nilBytes vis].
  rewrite skipn_nil, app_nil_r. reflexivity.
Qed.

Lemma unmarshal_wire (pr : pileupRow) (T H : list Z) :
  wfRow pr -> lensFit pr ->
  unmarshal (mkBytes (wireFormat pr ++ T) H) = Ok (decodedRow pr, nilError).
Proof.
  intros Hwf Hfit. unfold unmarshal, bytesSlice, bytesArray. cbn [vis hid].
  apply (unmarshalPileupRow_wire pr _ 0 _ _ (T ++ H)); try assumption.
  - cbn [nth_error]. now rewrite <- app_assoc.
  - rewrite length_app. lia.
  - rewrite !length_app. lia.
Qed.

(** X5: the decoder does not look behind the encoding.  For a row whose
    fields are values of their types and whose lists with a set bit have fewer
    than 2^32 records, the encoding followed by any bytes, within the length
    of the buffer or in its spare capacity, decodes to the same row as the
    encoding alone. *)
Theorem unmarshalPileupRow_ignores_rest (pr : pileupRow) (bs T H : list Z) :
  wfRow pr -> lensFit pr ->
  marshalBytes nilBytes pr = Ok bs ->
  exists r',
    unmarshal (mkBytes bs []) = Ok (r', nilError) /\
    unmarshal (mkBytes (bs ++ T) H) = Ok (r', nilError) /\
    rowEq r' (canon pr).
Proof.
  intros Hwf Hfit Hbs. rewrite marshalBytes_nil in Hbs.
  inversion Hbs; subst bs; clear Hbs.
  exists (decodedRow pr). split; [|split].
  - rewrite <- (app_nil_r (wireFormat pr)). now apply unmarshal_wire.
  - now apply unmarshal_wire.
  - apply rowEq_decodedRow.
Qed.

Lemma unmarshalPileupRow_ignores_rest_witness :
  wfRow scenarioRow /\ lensFit scenarioRow /\
  marshalBytes nilBytes scenarioRow = Ok scenarioBytes /\
  exists r',
    unmarshal (mkBytes scenarioBytes []) = Ok (r', nilError) /\
    unmarshal (mkBytes (scenarioBytes ++ [9; 9; 9; 9]) [7; 7]) = Ok (r', nilError) /\
    rowEq r' (canon scenarioRow).
Proof.
  assert (H : marshalBytes nilBytes scenarioRow = Ok scenarioBytes)
    by (vm_compute; reflexivity).
  split; [exact wfRow_scenarioRow|].
  split; [exact lensFit_scenarioRow|].
  split; [exact H|].
  exact (unmarshalPileupRow_ignores_rest scenarioRow scenarioBytes
           [9; 9; 9; 9] [7; 7] wfRow_scenarioRow lensFit_scenarioRow H).
Defined.

(** ** Distinct rows have distinct encodings *)

Lemma decodedRow_canon (pr : pileupRow) : decodedRow (canon pr) = decodedRow pr.
Proof.
  unfold decodedRow.
  change (fieldsPresent (canon pr)) with (fieldsPresent pr).
  change (refID (canon pr)) with (refID pr).
  change (pos (canon pr)) with (pos pr).
  change (depth (payload (canon pr))) with (depth (payload pr)).
  cbn [seq pileup.NBase map]. f_equal. f_equal.
  - unfold canon. cbn [payload counts].
    destruct (hasField (fieldsPresent pr) fieldCounts); reflexivity.
  - unfold canon. cbn [payload perRead seq map pileup.NBase perReadAt nth].
    repeat match goal with
           | |- context [hasField ?x ?y] => destruct (hasField x y)
           end; reflexivity.
Qed.

Lemma wireFormat_prefix (pr1 pr2 : pileupRow) (T : list Z) :
  wfRow pr1 -> lensFit pr1 -> wfRow pr2 -> lensFit pr2 ->
  wireFormat pr2 = wireFormat pr1 ++ T ->
  T = [] /\ decodedRow pr1 = decodedRow pr2.
Proof.
  intros Hwf1 Hfit1 Hwf2 Hfit2 HT.
  assert (Hd : decodedRow pr1 = decodedRow pr2).
  { pose proof (unmarshal_wire pr1 T [] Hwf1 Hfit1) as E1.
    pose proof (unmarshal_wire pr2 [] [] Hwf2 Hfit2) as E2.
    rewrite app_nil_r, HT, E1 in E2.
    exact (f_equal (fun x => match x with Ok (r, _) => r | Panic => zeroRow end) E2). }
  split; [|exact Hd].
  assert (Hlen : length (wireFormat pr1) = length (wireFormat pr2)).
  { rewrite <- (wireFormat_canon pr1), <- (wireFormat_canon pr2).
    apply Nat2Z.inj. rewrite !length_wireFormat.
    unfold specLength.
    change (fieldsPresent (canon pr1)) with (fieldsPresent pr1).
    change (fieldsPresent (canon pr2)) with (fieldsPresent pr2).
    assert (Hfp : fieldsPresent pr1 = fieldsPresent pr2)
      by exact (f_equal fieldsPresent Hd).
    assert (Hpr : map elems (perRead (payload (canon pr1)))
                  = map elems (perRead (payload (canon pr2)))).
    { pose proof (rowEq_decodedRow pr1) as (_ & _ & _ & _ & _ & K1).
      pose proof (rowEq_decodedRow pr2) as (_ & _ & _ & _ & _ & K2).
      rewrite <- K1, <- K2, Hd. reflexivity. }
    rewrite Hfp. f_equal.
    cbn [seq pileup.NBase map fold_right].
    unfold lenFeatures, perReadAt.
    rewrite <- !(map_nth elems). cbn [elems]. rewrite Hpr. reflexivity. }
  rewrite HT, length_app in Hlen.
  destruct T; [reflexivity | cbn [length] in Hlen; lia].
Qed.

(** X6: the encoding is a prefix code on rows.  If the encoding of one row
    starts with the encoding of another (both with fields that are values of
    their types and lists with a set bit of fewer than 2^32 records), then the
    two encodings are the same bytes and the two rows are equal field by
    field, their payload fields with an unset bit compared as zero. *)
Theorem marshalPileupRow_prefix_code (pr1 pr2 : pileupRow) (b1 b2 T : list Z) :
  wfRow pr1 -> lensFit pr1 -> wfRow pr2 -> lensFit pr2 ->
  marshalBytes nilBytes pr1 = Ok b1 ->
  marshalBytes nilBytes pr2 = Ok b2 ->
  b2 = b1 ++ T ->
  T = [] /\ rowEq (canon pr1) (canon pr2).
Proof.
  intros Hwf1 Hfit1 Hwf2 Hfit2 H1 H2 HT.
  rewrite marshalBytes_nil in H1, H2.
  injection H1 as <-. injection H2 as <-.
  destruct (wireFormat_prefix pr1 pr2 T Hwf1 Hfit1 Hwf2 Hfit2 HT) as [HT0 Hd].
  split; [exact HT0|].
  eapply rowEq_trans; [apply rowEq_sym, rowEq_decodedRow|].
  rewrite Hd. apply rowEq_decodedRow.
Qed.

Lemma wfRow_scenarioRowStale : wfRow scenarioRowStale.
Proof.
  constructor; cbn; unfold isU32; try lia; try reflexivity.
  - repeat constructor; cbn; lia.
  - repeat constructor; unfold isU16, isU8; cbn; lia.
Qed.

Lemma lensFit_scenarioRowStale : lensFit scenarioRowStale.
Proof.
  intros b Hb _. unfold pileup.NBase in Hb.
  destruct b as [|[|[|[|b]]]]; try lia; vm_compute; reflexivity.
Qed.

Lemma marshalPileupRow_prefix_code_witness :
  wfRow scenarioRow /\ lensFit scenarioRow /\
  wfRow scenarioRowStale /\ lensFit scenarioRowStale /\
  marshalBytes nilBytes scenarioRow = Ok scenarioBytes /\
  marshalBytes nilBytes scenarioRowStale = Ok scenarioBytes /\
  scenarioBytes = scenarioBytes ++ [] /\
  @nil Z = [] /\ rowEq (canon scenarioRow) (canon scenarioRowStale).
Proof.
  assert (H1 : marshalBytes nilBytes scenarioRow = Ok scenarioBytes)
    by (vm_compute; reflexivity).
  assert (H2 : marshalBytes nilBytes scenarioRowStale = Ok scenarioBytes)
    by (vm_compute; reflexivity).
  assert (HT : scenarioBytes = scenarioBytes ++ [])
    by (vm_compute; reflexivity).
  split; [exact wfRow_scenarioRow|].
  split; [exact lensFit_scenarioRow|].
  split; [exact wfRow_scenarioRowStale|].
  split; [exact lensFit_scenarioRowStale|].
  split; [exact H1|]. split; [exact H2|]. split; [exact HT|].
  exact (marshalPileupRow_prefix_code scenarioRow scenarioRowStale
           scenarioBytes scenarioBytes []
           wfRow_scenarioRow lensFit_scenarioRow
           wfRow_scenarioRowStale lensFit_scenarioRowStale H1 H2 HT).
Defined.

(** * What the decoder returns on any input *)

(** ** Integers made of bytes *)

Lemma testbit_isU8 (b n : Z) : isU8 b -> 8 <= n -> Z.testbit b n = false.
Proof. intros Hb Hn. apply (testbit_above b 8 n); unfold isU8 in Hb; lia. Qed.

Lemma testbit_placed32 (b k n : Z) :
  isU8 b -> 0 <= k -> k + 8 <= 32 -> 0 <= n ->
  Z.testbit (u32 (Z.shiftl b k)) n
  = (k <=? n) && (n <? k + 8) && Z.testbit b (n - k).
Proof.
  intros Hb Hk Hk' Hn. rewrite testbit_u32 by lia.
  rewrite Z.shiftl_spec by lia.
  destruct (Z.leb_spec k n); cbn [andb].
  - destruct (Z.ltb_spec n (k + 8)); cbn [andb].
    + destruct (Z.ltb_spec n 32); [reflexivity | lia].
    + rewrite (testbit_isU8 b (n - k)) by (assumption || lia).
      apply andb_false_r.
  - rewrite Z.testbit_neg_r by lia. apply andb_false_r.
Qed.

Lemma testbit_placed16 (b n : Z) :
  isU8 b -> 0 <= n ->
  Z.testbit (u16 (Z.shiftl b 8)) n
  = (8 <=? n) && (n <? 16) && Z.testbit b (n - 8).
Proof.
  intros Hb Hn. rewrite testbit_u16 by lia.
  rewrite Z.shiftl_spec by lia.
  destruct (Z.leb_spec 8 n); cbn [andb].
  - destruct (Z.ltb_spec n 16); reflexivity.
  - rewrite Z.testbit_neg_r by lia. apply andb_false_r.
Qed.

Lemma testbit_word32 (b0 b1 b2 b3 n : Z) :
  isU8 b0 -> isU8 b1 -> isU8 b2 -> isU8 b3 -> 0 <= n ->
  Z.testbit (word32 b0 b1 b2 b3) n
  = if n <? 8 then Z.testbit b0 n
    else if n <? 16 then Z.testbit b1 (n - 8)
    else if n <? 24 then Z.testbit b2 (n - 16)
    else if n <? 32 then Z.testbit b3 (n - 24)
    else false.
Proof.
  intros H0 H1 H2 H3 Hn. unfold word32.
  rewrite !Z.lor_spec, !testbit_placed32 by (assumption || lia).
  change (8 + 8) with 16. change (16 + 8) with 24. change (24 + 8) with 32.
  destruct (Z.ltb_spec n 8).
  { destruct (Z.leb_spec 8 n), (Z.leb_spec 16 n), (Z.leb_spec 24 n); try lia.
    cbn [andb orb]. now rewrite !orb_false_r. }
  rewrite (testbit_isU8 b0 n) by (assumption || lia). cbn [orb].
  destruct (Z.leb_spec 8 n); [|lia]. cbn [andb].
  destruct (Z.ltb_spec n 16).
  { destruct (Z.leb_spec 16 n), (Z.leb_spec 24 n); try lia.
    cbn [andb orb]. now rewrite !orb_false_r. }
  cbn [andb orb].
  destruct (Z.leb_spec 16 n); [|lia]. cbn [andb].
  destruct (Z.ltb_spec n 24).
  { destruct (Z.leb_spec 24 n); try lia. cbn [andb orb]. now rewrite !orb_false_r. }
  cbn [andb orb].
  destruct (Z.leb_spec 24 n); [|lia]. cbn [andb].
  destruct (Z.ltb_spec n 32); reflexivity.
Qed.

Lemma testbit_word16 (b0 b1 n : Z) :
  isU8 b0 -> isU8 b1 -> 0 <= n ->
  Z.testbit (word16 b0 b1) n
  = if n <? 8 then Z.testbit b0 n
    else if n <? 16 then Z.testbit b1 (n - 8)
    else false.
Proof.
  intros H0 H1 Hn. unfold word16.
  rewrite Z.lor_spec, testbit_placed16 by (assumption || lia).
  destruct (Z.ltb_spec n 8).
  { destruct (Z.leb_spec 8 n); try lia. cbn [andb orb]. now rewrite orb_false_r. }
  rewrite (testbit_isU8 b0 n) by (assumption || lia). cbn [orb].
  destruct (Z.leb_spec 8 n); [|lia]. cbn [andb].
  destruct (Z.ltb_spec n 16); reflexivity.
Qed.

Lemma isU32_word32 (b0 b1 b2 b3 : Z) :
  isU8 b0 -> isU8 b1 -> isU8 b2 -> isU8 b3 -> isU32 (word32 b0 b1 b2 b3).
Proof.
  intros H0 H1 H2 H3.
  assert (E : word32 b0 b1 b2 b3 = u32 (word32 b0 b1 b2 b3)).
  { apply Z.bits_inj'; intros n Hn.
    rewrite testbit_u32, testbit_word32 by (assumption || lia).
    destruct (Z.ltb_spec n 32); [reflexivity|].
    destruct (Z.ltb_spec n 8), (Z.ltb_spec n 16), (Z.ltb_spec n 24); try lia;
      try reflexivity. }
  rewrite E. apply isU32_u32.
Qed.

Lemma isU16_word16 (b0 b1 : Z) : isU8 b0 -> isU8 b1 -> isU16 (word16 b0 b1).
Proof.
  intros H0 H1.
  assert (E : word16 b0 b1 = u16 (word16 b0 b1)).
  { apply Z.bits_inj'; intros n Hn.
    rewrite testbit_u16, testbit_word16 by (assumption || lia).
    destruct (Z.ltb_spec n 16); [reflexivity|].
    destruct (Z.ltb_spec n 8); try lia; try reflexivity. }
  rewrite E. unfold isU16, u16. apply Z.mod_pos_bound. lia.
Qed.

Lemma byte_of_word32 (b0 b1 b2 b3 k b : Z) :
  isU8 b0 -> isU8 b1 -> isU8 b2 -> isU8 b3 -> isU8 b -> 0 <= k ->
  (forall n, 0 <= n < 8 ->
             Z.testbit (word32 b0 b1 b2 b3) (n + k) = Z.testbit b n) ->
  u8 (Z.shiftr (word32 b0 b1 b2 b3) k) = b.
Proof.
  intros H0 H1 H2 H3 Hb Hk Hbits.
  apply Z.bits_inj'; intros n Hn. rewrite testbit_u8 by lia.
  destruct (Z.ltb_spec n 8); cbn [andb].
  - rewrite Z.shiftr_spec by lia. apply Hbits. lia.
  - symmetry. apply testbit_isU8; [exact Hb | lia].
Qed.

(** The bytes [PutUint32] stores for the value [Uint32] read are the bytes
    read. *)
Lemma le32_word32 (b0 b1 b2 b3 : Z) :
  isU8 b0 -> isU8 b1 -> isU8 b2 -> isU8 b3 ->
  le32 (word32 b0 b1 b2 b3) = [b0; b1; b2; b3].
Proof.
  intros H0 H1 H2 H3. unfold le32.
  rewrite <- (Z.shiftr_0_r (word32 b0 b1 b2 b3)) at 1.
  rewrite (byte_of_word32 b0 b1 b2 b3 0 b0),
    (byte_of_word32 b0 b1 b2 b3 8 b1),
    (byte_of_word32 b0 b1 b2 b3 16 b2),
    (byte_of_word32 b0 b1 b2 b3 24 b3);
    try assumption; try lia; try reflexivity;
    intros n Hn; rewrite testbit_word32 by (assumption || lia).
  - destruct (Z.ltb_spec (n + 24) 8), (Z.ltb_spec (n + 24) 16),
      (Z.ltb_spec (n + 24) 24), (Z.ltb_spec (n + 24) 32); try lia.
    f_equal; lia.
  - destruct (Z.ltb_spec (n + 16) 8), (Z.ltb_spec (n + 16) 16),
      (Z.ltb_spec (n + 16) 24); try lia.
    f_equal; lia.
  - destruct (Z.ltb_spec (n + 8) 8), (Z.ltb_spec (n + 8) 16); try lia.
    f_equal; lia.
  - destruct (Z.ltb_spec (n + 0) 8); try lia. f_equal; lia.
Qed.

Lemma byte_of_word16 (b0 b1 k b : Z) :
  isU8 b0 -> isU8 b1 -> isU8 b -> 0 <= k ->
  (forall n, 0 <= n < 8 -> Z.testbit (word16 b0 b1) (n + k) = Z.testbit b n) ->
  u8 (Z.shiftr (word16 b0 b1) k) = b.
Proof.
  intros H0 H1 Hb Hk Hbits.
  apply Z.bits_inj'; intros n Hn. rewrite testbit_u8 by lia.
  destruct (Z.ltb_spec n 8); cbn [andb].
  - rewrite Z.shiftr_spec by lia. apply Hbits. lia.
  - symmetry. apply testbit_isU8; [exact Hb | lia].
Qed.

Lemma le16_word16 (b0 b1 : Z) :
  isU8 b0 -> isU8 b1 -> le16 (word16 b0 b1) = [b0; b1].
Proof.
  intros H0 H1. unfold le16.
  rewrite <- (Z.shiftr_0_r (word16 b0 b1)) at 1.
  rewrite (byte_of_word16 b0 b1 0 b0), (byte_of_word16 b0 b1 8 b1);
    try assumption; try lia; try reflexivity;
    intros n Hn; rewrite testbit_word16 by (assumption || lia).
  - destruct (Z.ltb_spec (n + 8) 8), (Z.ltb_spec (n + 8) 16); try lia.
    f_equal; lia.
  - destruct (Z.ltb_spec (n + 0) 8); try lia. f_equal; lia.
Qed.

(** ** Windows of an array *)

Lemma firstn_plus {A : Type} (l : list A) (n1 n2 : nat) :
  firstn (n1 + n2) l = firstn n1 l ++ firstn n2 (skipn n1 l).
Proof.
  revert l; induction n1 as [|n1 IH]; intros l; [reflexivity|].
  destruct l as [|x l]; cbn [Nat.add firstn skipn app].
  - now rewrite firstn_nil.
  - now rewrite IH.
Qed.

Lemma window_add {A : Type} (l : list A) (o n1 n2 : nat) :
  firstn (n1 + n2) (skipn o l)
  = firstn n1 (skipn o l) ++ firstn n2 (skipn (o + n1) l).
Proof.
  rewrite firstn_plus, skipn_skipn, (Nat.add_comm n1 o). reflexivity.
Qed.

Lemma window_one {A : Type} (l : list A) (o : nat) (x : A) :
  nth_error l o = Some x -> firstn 1 (skipn o l) = [x].
Proof.
  revert o; induction l as [|y l IH]; intros [|o] H; cbn in *;
    try discriminate.
  - now inversion H.
  - now apply IH.
Qed.

Lemma window_length {A : Type} (l W : list A) (o n : nat) :
  firstn n (skipn o l) = W -> length W = n -> (0 < n)%nat ->
  (o + n <= length l)%nat.
Proof.
  intros <- H Hn. rewrite length_firstn, length_skipn in H. lia.
Qed.

Lemma Forall_skipn_keeps {A : Type} (P : A -> Prop) (l : list A) (o : nat) :
  Forall P l -> Forall P (skipn o l).
Proof.
  revert l; induction o as [|o IH]; intros l H; [exact H|].
  destruct H; cbn [skipn]; [constructor | now apply IH].
Qed.

Lemma Forall_firstn_keeps {A : Type} (P : A -> Prop) (l : list A) (n : nat) :
  Forall P l -> Forall P (firstn n l).
Proof.
  revert l; induction n as [|n IH]; intros l H; [constructor|].
  destruct H; cbn [firstn]; constructor; [assumption | now apply IH].
Qed.

Lemma window_Forall {A : Type} (P : A -> Prop) (l : list A) (o n : nat) :
  Forall P l -> Forall P (firstn n (skipn o l)).
Proof. intros H. now apply Forall_firstn_keeps, Forall_skipn_keeps. Qed.

(** ** Loads that returned *)

Section Loads.

Variables (m : mem) (a : nat) (arr : list Z).
Hypothesis Hm : nth_error m a = Some arr.
Hypothesis Hbytes : Forall isU8 arr.

Lemma loadByte_read (s : slice) (i v : Z) (o : nat) :
  loadByte m s i = Ok v -> s_arr s = a -> s_off s + i = Z.of_nat o ->
  firstn 1 (skipn o arr) = [v] /\ isU8 v /\ 0 <= i < s_len s.
Proof using Hm Hbytes.
  unfold loadByte. intros H Hs Ho.
  destruct (Z.leb_spec 0 i), (Z.ltb_spec i (s_len s)); cbn [andb] in H;
    try discriminate H.
  rewrite Hs, Hm, Ho, Nat2Z.id in H.
  destruct (nth_error arr o) as [x|] eqn:E; [|discriminate H].
  injection H as <-. split; [now apply window_one|]. split; [|lia].
  apply (proj1 (Forall_forall isU8 arr) Hbytes). eapply nth_error_In. exact E.
Qed.

Lemma Uint16_read (s : slice) (v : Z) (o : nat) :
  LittleEndian.Uint16 m s = Ok v -> s_arr s = a -> s_off s = Z.of_nat o ->
  firstn 2 (skipn o arr) = le16 v /\ isU16 v.
Proof using Hm Hbytes.
  unfold LittleEndian.Uint16. intros H Hs Ho.
  apply bind_inv in H. destruct H as (x & _ & H).
  apply bind_inv in H. destruct H as (b0 & H0 & H).
  apply bind_inv in H. destruct H as (b1 & H1 & H).
  assert (Hv : v = word16 b0 b1) by (unfold word16; congruence).
  subst v. clear H.
  apply (loadByte_read s 0 b0 o) in H0; [|assumption|lia].
  apply (loadByte_read s 1 b1 (o + 1)) in H1; [|assumption|lia].
  destruct H0 as (W0 & U0 & _), H1 as (W1 & U1 & _).
  split; [|now apply isU16_word16].
    rewrite le16_word16 by assumption.
  change 2%nat with (1 + 1)%nat. rewrite window_add, W0, W1. reflexivity.
Qed.

Lemma Uint32_read (s : slice) (v : Z) (o : nat) :
  LittleEndian.Uint32 m s = Ok v -> s_arr s = a -> s_off s = Z.of_nat o ->
  firstn 4 (skipn o arr) = le32 v /\ isU32 v.
Proof using Hm Hbytes.
  unfold LittleEndian.Uint32. intros H Hs Ho.
  apply bind_inv in H. destruct H as (x & _ & H).
  apply bind_inv in H. destruct H as (b0 & H0 & H).
  apply bind_inv in H. destruct H as (b1 & H1 & H).
  apply bind_inv in H. destruct H as (b2 & H2 & H).
  apply bind_inv in H. destruct H as (b3 & H3 & H).
  assert (Hv : v = word32 b0 b1 b2 b3) by (unfold word32; congruence).
  subst v. clear H.
  apply (loadByte_read s 0 b0 o) in H0; [|assumption|lia].
  apply (loadByte_read s 1 b1 (o + 1)) in H1; [|assumption|lia].
  apply (loadByte_read s 2 b2 (o + 1 + 1)) in H2; [|assumption|lia].
  apply (loadByte_read s 3 b3 (o + 1 + 1 + 1)) in H3; [|assumption|lia].
  destruct H0 as (W0 & U0 & _), H1 as (W1 & U1 & _), H2 as (W2 & U2 & _),
    H3 as (W3 & U3 & _).
  split; [|now apply isU32_word32].
  rewrite le32_word32 by assumption.
  change 4%nat with (1 + (1 + (1 + 1)))%nat.
  rewrite !window_add, W0, W1, W2, W3. reflexivity.
Qed.

End Loads.

(** ** The phases of the decoder, when they return *)

Ltac bstep H x Hx :=
  apply bind_inv in H; destruct H as (x & Hx & H).

Ltac inv32 m a arr Hm Hbytes H o :=
  apply (Uint32_read m a arr Hm Hbytes _ _ o) in H;
  [ | reflexivity | cbn [s_off]; lia ].

Section Sound.

Variables (m : mem) (a : nat) (arr : list Z) (L C : Z).
Hypothesis Hm : nth_error m a = Some arr.
Hypothesis Hbytes : Forall isU8 arr.

Lemma unmarshalHeader_sound (r : pileupRow) (o' : Z) :
  unmarshalHeader m (mkSlice a 0 L C) 0 = Ok (r, o') ->
  o' = 16 /\ 16 <= C /\
  firstn 16 arr = wireHeader r /\
  isU32 (fieldsPresent r) /\ isU32 (refID r) /\ isU32 (pos r) /\
  isU32 (depth (payload r)) /\
  counts (payload r) = repeat (0, 0) pileup.NBaseEnum /\
  perRead (payload r) = repeat nilFeatures pileup.NBase.
Proof using Hm Hbytes.
  unfold unmarshalHeader, resliceTo. intros H.
  apply bind_inv in H. destruct H as ([o1 inStart] & Hcut & H).
  apply cutAndAdvance_Ok in Hcut.
  destruct Hcut as (_ & _ & _ & HC & -> & ->). cbn [s_cap] in HC.
  bstep H b0 Hb0. apply reslice_inv in Hb0. subst b0.
  bstep H v0 Hv0. inv32 m a arr Hm Hbytes Hv0 0%nat.
  bstep H b1 Hb1. apply reslice_inv in Hb1. subst b1.
  bstep H v1 Hv1. inv32 m a arr Hm Hbytes Hv1 4%nat.
  bstep H b2 Hb2. apply reslice_inv in Hb2. subst b2.
  bstep H v2 Hv2. inv32 m a arr Hm Hbytes Hv2 8%nat.
  bstep H b3 Hb3. apply reslice_inv in Hb3. subst b3.
  bstep H v3 Hv3. inv32 m a arr Hm Hbytes Hv3 12%nat.
  injection H as <- <-.
  destruct Hv0 as [W0 U0], Hv1 as [W1 U1], Hv2 as [W2 U2], Hv3 as [W3 U3].
  split; [reflexivity|]. split; [lia|].
  split; [|split; [exact U0|]; split; [exact U1|]; split; [exact U2|];
           split; [exact U3|]; split; reflexivity].
  unfold wireHeader. cbn [setDepth fieldsPresent refID pos payload depth].
  rewrite <- W0, <- W1, <- W2, <- W3.
  change 16%nat with (4 + (4 + (4 + 4)))%nat.
  rewrite <- (firstn_skipn 0 arr) at 1. cbn [firstn app].
  rewrite !window_add. reflexivity.
Qed.


Lemma unmarshalCounts_sound (pr0 r : pileupRow) (on : nat) (o' : Z) :
  unmarshalCounts m (mkSlice a 0 L C) pr0 (Z.of_nat on) = Ok (r, o') ->
  counts (payload pr0) = repeat (0, 0) pileup.NBaseEnum ->
  o' = Z.of_nat (on + 40) /\ o' <= C /\
  firstn 40 (skipn on arr) = wireCounts r /\
  fieldsPresent r = fieldsPresent pr0 /\ refID r = refID pr0 /\
  pos r = pos pr0 /\ depth (payload r) = depth (payload pr0) /\
  perRead (payload r) = perRead (payload pr0) /\
  length (counts (payload r)) = pileup.NBaseEnum /\
  Forall (fun c => isU32 (fst c) /\ isU32 (snd c)) (counts (payload r)).
Proof using Hm Hbytes.
  unfold unmarshalCounts. intros H Hzero.
  apply bind_inv in H. destruct H as ([o1 inCounts] & Hcut & H).
  apply cutAndAdvance_Ok in Hcut.
  destruct Hcut as (_ & _ & _ & HC & -> & ->). cbn [s_cap] in HC.
  bstep H b0 Hb0. apply reslice_inv in Hb0. subst b0.
  bstep H v0 Hv0. inv32 m a arr Hm Hbytes Hv0 on.
  bstep H b1 Hb1. apply reslice_inv in Hb1. subst b1.
  bstep H v1 Hv1. inv32 m a arr Hm Hbytes Hv1 (on + 4)%nat.
  bstep H b2 Hb2. apply reslice_inv in Hb2. subst b2.
  bstep H v2 Hv2. inv32 m a arr Hm Hbytes Hv2 (on + 4 + 4)%nat.
  bstep H b3 Hb3. apply reslice_inv in Hb3. subst b3.
  bstep H v3 Hv3. inv32 m a arr Hm Hbytes Hv3 (on + 4 + 4 + 4)%nat.
  bstep H b4 Hb4. apply reslice_inv in Hb4. subst b4.
  bstep H v4 Hv4. inv32 m a arr Hm Hbytes Hv4 (on + 4 + 4 + 4 + 4)%nat.
  bstep H b5 Hb5. apply reslice_inv in Hb5. subst b5.
  bstep H v5 Hv5. inv32 m a arr Hm Hbytes Hv5 (on + 4 + 4 + 4 + 4 + 4)%nat.
  bstep H b6 Hb6. apply reslice_inv in Hb6. subst b6.
  bstep H v6 Hv6. inv32 m a arr Hm Hbytes Hv6 (on + 4 + 4 + 4 + 4 + 4 + 4)%nat.
  bstep H b7 Hb7. apply reslice_inv in Hb7. subst b7.
  bstep H v7 Hv7. inv32 m a arr Hm Hbytes Hv7 (on + 4 + 4 + 4 + 4 + 4 + 4 + 4)%nat.
  bstep H b8 Hb8. apply reslice_inv in Hb8. subst b8.
  bstep H v8 Hv8.
  inv32 m a arr Hm Hbytes Hv8 (on + 4 + 4 + 4 + 4 + 4 + 4 + 4 + 4)%nat.
  bstep H b9 Hb9. apply reslice_inv in Hb9. subst b9.
  bstep H v9 Hv9.
  inv32 m a arr Hm Hbytes Hv9 (on + 4 + 4 + 4 + 4 + 4 + 4 + 4 + 4 + 4)%nat.
  injection H as <- <-.
  destruct Hv0 as [W0 U0], Hv1 as [W1 U1], Hv2 as [W2 U2], Hv3 as [W3 U3],
    Hv4 as [W4 U4], Hv5 as [W5 U5], Hv6 as [W6 U6], Hv7 as [W7 U7],
    Hv8 as [W8 U8], Hv9 as [W9 U9].
  destruct pr0 as [fp rid p [d cs prd]]. cbn [payload counts] in Hzero.
  subst cs.
  split; [lia|]. split; [lia|].
  split; [|split; [reflexivity|]; split; [reflexivity|];
           split; [reflexivity|]; split; [reflexivity|];
           split; [reflexivity|]; split; [reflexivity|];
           repeat (constructor; [split; assumption|]); constructor].
  unfold wireCounts, count0, count1.
  cbn [setCount0 setCount1 payload counts depth perRead fieldsPresent refID pos
       pileup.NBaseEnum pileup.BaseA pileup.BaseC pileup.BaseG pileup.BaseT
       pileup.BaseX repeat modNth nth fst snd].
  rewrite <- W0, <- W1, <- W2, <- W3, <- W4, <- W5, <- W6, <- W7, <- W8, <- W9.
  change 40%nat with (4 + (4 + (4 + (4 + (4 + (4 + (4 + (4 + (4 + 4)))))))))%nat.
  rewrite !window_add. reflexivity.
Qed.

Lemma unmarshalFeatures_sound (k : nat) :
  forall (on : nat) (done nf' : list perReadFeatures) (o' : Z),
    unmarshalFeatures m (mkSlice a 0 L C) k (length done) (Z.of_nat on)
      (done ++ repeat zeroFeatures k) = Ok (o', nf') ->
    Z.of_nat on <= C ->
    exists l,
      nf' = done ++ l /\ length l = k /\
      o' = Z.of_nat (on + 6 * k) /\ o' <= C /\
      firstn (6 * k) (skipn on arr) = wireFeatures l /\
      Forall wfFeatures l.
Proof using Hm Hbytes.
  induction k as [|k IH]; intros on done nf' o' H HC.
  - cbn [unmarshalFeatures repeat] in H. injection H as <- <-.
    exists []. rewrite Nat.mul_0_r, Nat.add_0_r.
    repeat split; try reflexivity; try assumption. constructor.
  - cbn [unmarshalFeatures repeat] in H. unfold resliceTo in H.
    apply bind_inv in H. destruct H as ([o1 src] & Hcut & H).
    apply cutAndAdvance_Ok in Hcut.
    destruct Hcut as (_ & _ & _ & HC' & -> & ->). cbn [s_cap] in HC'.
    bstep H b0 Hb0. apply reslice_inv in Hb0. subst b0.
    bstep H vd Hvd.
    apply (Uint16_read m a arr Hm Hbytes _ _ on) in Hvd;
      [ | reflexivity | cbn [s_off]; lia ].
    bstep H b1 Hb1. apply reslice_inv in Hb1. subst b1.
    bstep H vf Hvf.
    apply (Uint16_read m a arr Hm Hbytes _ _ (on + 2)%nat) in Hvf;
      [ | reflexivity | cbn [s_off]; lia ].
    bstep H vq Hvq.
    apply (loadByte_read m a arr Hm Hbytes _ _ _ (on + 2 + 2)%nat) in Hvq;
      [ | reflexivity | cbn [s_off]; lia ].
    bstep H vs Hvs.
    apply (loadByte_read m a arr Hm Hbytes _ _ _ (on + 2 + 2 + 1)%nat) in Hvs;
      [ | reflexivity | cbn [s_off]; lia ].
    rewrite !modNth_frontier in H.
    change (setStrand vs (setQual vq (setFraglen vf (setDist5p vd zeroFeatures))))
      with (mkFeatures vd vf vq vs) in H.
    replace (done ++ mkFeatures vd vf vq vs :: repeat zeroFeatures k)
      with ((done ++ [mkFeatures vd vf vq vs]) ++ repeat zeroFeatures k) in H
      by (rewrite <- app_assoc; reflexivity).
    replace (S (length done)) with (length (done ++ [mkFeatures vd vf vq vs])) in H
      by (rewrite length_app; cbn [length]; lia).
    replace (Z.of_nat on + 6) with (Z.of_nat (on + 6)) in H by lia.
    apply IH in H; [|lia].
    destruct H as (l & -> & Hlen & -> & HoC & Hw & Hwf).
    destruct Hvd as [Wd Ud], Hvf as [Wf Uf], Hvq as (Wq & Uq & _),
      Hvs as (Ws & Us & _).
    exists (mkFeatures vd vf vq vs :: l).
    split; [rewrite <- app_assoc; reflexivity|].
    split; [cbn [length]; lia|].
    split; [lia|]. split; [lia|].
    split.
    + replace (6 * S k)%nat with (2 + (2 + (1 + (1 + 6 * k))))%nat by lia.
      rewrite !window_add, Wd, Wf, Wq, Ws.
      replace (on + 2 + 2 + 1 + 1)%nat with (on + 6)%nat by lia.
      rewrite Hw. reflexivity.
    + constructor; [|exact Hwf]. repeat split; cbn; first [apply Ud | apply Uf | apply Uq | apply Us].
Qed.


Lemma nth_updNth_eq {A : Type} (n : nat) (x d : A) (l : list A) :
  (n < length l)%nat -> nth n (updNth n x l) d = x.
Proof using Type.
  revert n; induction l as [|y l IH]; intros [|n] H; cbn in *; try lia.
  - reflexivity.
  - apply IH. lia.
Qed.

Lemma unmarshalPerRead_sound (bs : list nat) :
  forall (pr0 r : pileupRow) (on : nat) (o' : Z),
    unmarshalPerRead m (mkSlice a 0 L C) pr0 (Z.of_nat on) bs = Ok (r, o') ->
    NoDup bs ->
    (forall b, In b bs -> (b < length (perRead (payload pr0)))%nat) ->
    Z.of_nat on <= C ->
    o' = Z.of_nat (on + length (flat_map (wirePerRead r) bs)) /\ o' <= C /\
    firstn (length (flat_map (wirePerRead r) bs)) (skipn on arr)
    = flat_map (wirePerRead r) bs /\
    fieldsPresent r = fieldsPresent pr0 /\ refID r = refID pr0 /\
    pos r = pos pr0 /\ depth (payload r) = depth (payload pr0) /\
    counts (payload r) = counts (payload pr0) /\
    length (perRead (payload r)) = length (perRead (payload pr0)) /\
    (forall b, ~ In b bs ->
               perReadAt (payload r) b = perReadAt (payload pr0) b) /\
    (forall b, In b bs ->
       if hasField (fieldsPresent pr0) (perReadBit b)
       then exists l, perReadAt (payload r) b = features l /\
                      Z.of_nat (length l) < 2 ^ 32 /\ Forall wfFeatures l
       else perReadAt (payload r) b = perReadAt (payload pr0) b).
Proof using Hm Hbytes.
  induction bs as [|b bs IH]; intros pr0 r on o' H Hnd Hlt HC.
  - cbn [unmarshalPerRead] in H. injection H as <- <-.
    cbn [flat_map length firstn]. rewrite Nat.add_0_r.
    repeat split; try reflexivity; try assumption.
    intros b [].
  - cbn [unmarshalPerRead] in H.
    inversion Hnd as [|b' bs' Hnotin Hnd']; subst b' bs'.
    assert (Hb : (b < length (perRead (payload pr0)))%nat)
      by (apply Hlt; left; reflexivity).
    destruct (hasField (fieldsPresent pr0) (perReadBit b)) eqn:E.
    + apply bind_inv in H. destruct H as ([o1 lenSlice] & Hcut & H).
      apply cutAndAdvance_Ok in Hcut.
      destruct Hcut as (_ & _ & _ & HC1 & -> & ->). cbn [s_cap] in HC1.
      bstep H curLen Hcur.
      apply (Uint32_read m a arr Hm Hbytes _ _ on) in Hcur;
        [ | reflexivity | cbn [s_off]; lia ].
      destruct Hcur as [Wlen Ulen].
      apply bind_inv in H. destruct H as ([o2 nf] & Hf & H).
      rewrite repeat_length in Hf.
      replace (Z.of_nat on + 4) with (Z.of_nat (on + 4)) in Hf by lia.
      apply (unmarshalFeatures_sound (Z.to_nat curLen) (on + 4) [] nf o2) in Hf;
        [|lia].
      destruct Hf as (l & Hnf & Hlen & -> & HC2 & Wl & Hwf).
      cbn [app] in Hnf. subst nf.
      apply IH in H; [ | exact Hnd'
                       | intros b' Hb'; cbn [setPerRead payload perRead];
                         rewrite length_updNth; apply Hlt; right; exact Hb'
                       | lia ].
      destruct H as (-> & HoC & Wrest & Hfp & Hrid & Hpos & Hd & Hcs & Hlenp
                     & Hout & Hin).
      cbn [setPerRead fieldsPresent refID pos payload depth counts perRead] in *.
      rewrite length_updNth in Hlenp.
      assert (Hpb : perReadAt (payload r) b = features l).
      { rewrite (Hout b Hnotin). unfold perReadAt. cbn [payload perRead].
        now apply nth_updNth_eq. }
      assert (Hwb : wirePerRead r b = le32 curLen ++ wireFeatures l).
      { unfold wirePerRead. rewrite Hfp, E, Hpb. unfold lenFeatures.
        cbn [elems]. rewrite Hlen, Z2Nat.id by (unfold isU32 in Ulen; lia).
        now rewrite u32_small. }
      cbn [flat_map]. rewrite Hwb.
      rewrite !length_app, length_le32, length_wireFeatures, Hlen.
      split; [lia|]. split; [lia|].
      split.
      { replace (4 + 6 * Z.to_nat curLen
                 + length (flat_map (wirePerRead r) bs))%nat
          with (4 + (6 * Z.to_nat curLen
                     + length (flat_map (wirePerRead r) bs)))%nat by lia.
        rewrite !window_add, Wlen, Wl, <- app_assoc.
        replace (on + 4 + 6 * Z.to_nat curLen)%nat
          with (on + 4 + 6 * Z.to_nat curLen)%nat in Wrest by lia.
        rewrite Wrest. reflexivity. }
      split; [exact Hfp|]. split; [exact Hrid|]. split; [exact Hpos|].
      split; [exact Hd|]. split; [exact Hcs|]. split; [exact Hlenp|].
      split.
      { intros b' Hb'. rewrite Hout by (intros K; apply Hb'; right; exact K).
        unfold perReadAt. cbn [payload perRead].
        apply nth_updNth_neq. intros ->. apply Hb'. left. reflexivity. }
      intros b' [<-|Hb'].
      * rewrite E. exists l. split; [exact Hpb|]. split; [|exact Hwf].
        rewrite Hlen, Z2Nat.id by (unfold isU32 in Ulen; lia).
        apply Ulen.
      * specialize (Hin b' Hb').
        destruct (hasField (fieldsPresent pr0) (perReadBit b')); [exact Hin|].
        rewrite Hin. unfold perReadAt. cbn [payload perRead].
        apply nth_updNth_neq. intros ->. contradiction.
    + apply IH in H; [ | exact Hnd'
                       | intros b' Hb'; apply Hlt; right; exact Hb' | exact HC ].
      destruct H as (-> & HoC & Wrest & Hfp & Hrid & Hpos & Hd & Hcs & Hlenp
                     & Hout & Hin).
      assert (Hwb : wirePerRead r b = []).
      { unfold wirePerRead. now rewrite Hfp, E. }
      cbn [flat_map]. rewrite Hwb. cbn [app].
      split; [reflexivity|]. split; [exact HoC|]. split; [exact Wrest|].
      split; [exact Hfp|]. split; [exact Hrid|]. split; [exact Hpos|].
      split; [exact Hd|]. split; [exact Hcs|]. split; [exact Hlenp|].
      split.
      { intros b' Hb'. apply Hout. intros K. apply Hb'. right. exact K. }
      intros b' [<-|Hb'].
      * rewrite E. apply Hout. exact Hnotin.
      * apply Hin. exact Hb'.
Qed.

End Sound.

(** ** Rows in which presence and content agree *)

Lemma canonical_row (r : pileupRow) :
  isU32 (fieldsPresent r) -> isU32 (refID r) -> isU32 (pos r) ->
  isU32 (depth (payload r)) ->
  length (counts (payload r)) = pileup.NBaseEnum ->
  Forall (fun c => isU32 (fst c) /\ isU32 (snd c)) (counts (payload r)) ->
  (hasField (fieldsPresent r) fieldCounts = false ->
   counts (payload r) = repeat (0, 0) pileup.NBaseEnum) ->
  length (perRead (payload r)) = pileup.NBase ->
  (forall b, (b < pileup.NBase)%nat ->
     if hasField (fieldsPresent r) (perReadBit b)
     then exists l, perReadAt (payload r) b = features l /\
                    Z.of_nat (length l) < 2 ^ 32 /\ Forall wfFeatures l
     else perReadAt (payload r) b = nilFeatures) ->
  wfRow r /\ lensFit r /\ decodedRow r = r.
Proof.
  intros U0 U1 U2 U3 Hclen Hc Hczero Hplen Hsum.
  destruct r as [fp rid p [d cs prd]].
  cbn [fieldsPresent refID pos payload depth counts perRead] in *.
  destruct prd as [|x0 [|x1 [|x2 [|x3 [|? ?]]]]]; try discriminate Hplen.
  pose proof (Hsum 0%nat ltac:(unfold pileup.NBase; lia)) as S0.
  pose proof (Hsum 1%nat ltac:(unfold pileup.NBase; lia)) as S1.
  pose proof (Hsum 2%nat ltac:(unfold pileup.NBase; lia)) as S2.
  pose proof (Hsum 3%nat ltac:(unfold pileup.NBase; lia)) as S3.
  unfold perReadAt in S0, S1, S2, S3. cbn [payload perRead nth] in S0, S1, S2, S3.
  split; [|split].
  - constructor; cbn [fieldsPresent refID pos payload depth counts perRead];
      try assumption.
    repeat constructor.
    + destruct (hasField fp (perReadBit 0));
        [destruct S0 as (l & -> & _ & Hl); exact Hl | subst x0; constructor].
    + destruct (hasField fp (perReadBit 1));
        [destruct S1 as (l & -> & _ & Hl); exact Hl | subst x1; constructor].
    + destruct (hasField fp (perReadBit 2));
        [destruct S2 as (l & -> & _ & Hl); exact Hl | subst x2; constructor].
    + destruct (hasField fp (perReadBit 3));
        [destruct S3 as (l & -> & _ & Hl); exact Hl | subst x3; constructor].
  - intros b Hb Hbit. specialize (Hsum b Hb).
    cbn [fieldsPresent payload] in *. rewrite Hbit in Hsum.
    destruct Hsum as (l & Hl & Hlen & _).
    unfold lenFeatures. unfold perReadAt in Hl |- *.
    cbn [payload perRead] in Hl |- *. rewrite Hl. exact Hlen.
  - unfold decodedRow.
    cbn [fieldsPresent refID pos payload depth counts perRead seq map
         pileup.NBase perReadAt nth].
    f_equal. f_equal.
    + destruct (hasField fp fieldCounts); [reflexivity|].
      symmetry. now apply Hczero.
    + destruct (hasField fp (perReadBit 0));
        [destruct S0 as (l0 & -> & _) | subst x0];
        (destruct (hasField fp (perReadBit 1));
         [destruct S1 as (l1 & -> & _) | subst x1]);
        (destruct (hasField fp (perReadBit 2));
         [destruct S2 as (l2 & -> & _) | subst x2]);
        (destruct (hasField fp (perReadBit 3));
         [destruct S3 as (l3 & -> & _) | subst x3]);
        reflexivity.
Qed.

(** ** The decoder, when it returns *)

Lemma unmarshalPileupRow_sound (m : mem) (a : nat) (arr : list Z) (L C : Z)
    (r : pileupRow) (e : error) :
  nth_error m a = Some arr -> Forall isU8 arr ->
  unmarshalPileupRow m (mkSlice a 0 L C) = Ok (r, e) ->
  wfRow r /\ lensFit r /\ decodedRow r = r /\
  firstn (length (wireFormat r)) arr = wireFormat r /\
  Z.of_nat (length (wireFormat r)) <= C.
Proof.
  intros Hm Hbytes H. unfold unmarshalPileupRow in H.
  apply bind_inv in H. destruct H as ([pr1 o1] & Hh & H).
  apply (unmarshalHeader_sound m a arr L C Hm Hbytes) in Hh.
  destruct Hh as (-> & HC1 & W1 & U0 & U1 & U2 & U3 & Hcz & Hpz).
  apply bind_inv in H. destruct H as ([pr2 o2] & Hc & H).
  apply bind_inv in H. destruct H as ([pr3 o3] & Hp & H).
  injection H as <- <-.
  (* after the counts *)
  assert (S2 :
    exists n2,
      o2 = Z.of_nat n2 /\ o2 <= C /\
      n2 = (16 + length (if hasField (fieldsPresent pr2) fieldCounts
                         then wireCounts pr2 else []))%nat /\
      firstn n2 arr
      = wireHeader pr2 ++ (if hasField (fieldsPresent pr2) fieldCounts
                           then wireCounts pr2 else []) /\
      isU32 (fieldsPresent pr2) /\ isU32 (refID pr2) /\ isU32 (pos pr2) /\
      isU32 (depth (payload pr2)) /\
      length (counts (payload pr2)) = pileup.NBaseEnum /\
      Forall (fun c => isU32 (fst c) /\ isU32 (snd c)) (counts (payload pr2)) /\
      (hasField (fieldsPresent pr2) fieldCounts = false ->
       counts (payload pr2) = repeat (0, 0) pileup.NBaseEnum) /\
      perRead (payload pr2) = repeat nilFeatures pileup.NBase).
  { destruct (hasField (fieldsPresent pr1) fieldCounts) eqn:Ec.
    - change 16 with (Z.of_nat 16) in Hc.
      apply (unmarshalCounts_sound m a arr L C Hm Hbytes) in Hc; [|exact Hcz].
      destruct Hc as (-> & HC2 & W2 & Hfp & Hrid & Hpos & Hd & Hpr & Hcl & Hcf).
      exists (16 + 40)%nat.
      assert (Hwh : wireHeader pr2 = wireHeader pr1)
        by (unfold wireHeader; now rewrite Hfp, Hrid, Hpos, Hd).
      rewrite Hfp, Ec, Hwh, Hrid, Hpos, Hd, Hpr, length_wireCounts.
      split; [reflexivity|]. split; [exact HC2|]. split; [reflexivity|].
      split.
      { rewrite firstn_plus, W1, W2. reflexivity. }
      repeat (split; [assumption|]).
      split; [discriminate | assumption].
    - injection Hc as <- <-. exists 16%nat. rewrite Ec. cbn [length].
      split; [reflexivity|]. split; [lia|]. split; [reflexivity|].
      split; [now rewrite app_nil_r|].
      repeat (split; [assumption|]).
      split; [rewrite Hcz; reflexivity|].
      split; [rewrite Hcz; repeat constructor; cbn; unfold isU32; lia|].
      split; [intros _; exact Hcz | exact Hpz]. }
  clear Hc W1 U0 U1 U2 U3 Hcz Hpz HC1.
  destruct S2 as (n2 & -> & HC2 & Hn2 & W2 & U0 & U1 & U2 & U3 & Hcl & Hcf
                  & Hcz & Hpz).
  (* after the per-read lists *)
  assert (S3 :
    o3 = Z.of_nat (n2 + length (flat_map (wirePerRead pr3) (seq 0 pileup.NBase)))
    /\ o3 <= C /\
    firstn (length (flat_map (wirePerRead pr3) (seq 0 pileup.NBase)))
           (skipn n2 arr)
    = flat_map (wirePerRead pr3) (seq 0 pileup.NBase) /\
    fieldsPresent pr3 = fieldsPresent pr2 /\ refID pr3 = refID pr2 /\
    pos pr3 = pos pr2 /\ depth (payload pr3) = depth (payload pr2) /\
    counts (payload pr3) = counts (payload pr2) /\
    length (perRead (payload pr3)) = pileup.NBase /\
    (forall b, (b < pileup.NBase)%nat ->
       if hasField (fieldsPresent pr3) (perReadBit b)
       then exists l, perReadAt (payload pr3) b = features l /\
                      Z.of_nat (length l) < 2 ^ 32 /\ Forall wfFeatures l
       else perReadAt (payload pr3) b = nilFeatures)).
  { assert (Hnil : forall b, perReadAt (payload pr2) b = nilFeatures).
    { intros b. unfold perReadAt. rewrite Hpz.
      destruct b as [|[|[|[|b]]]]; cbn; try reflexivity.
      destruct b; reflexivity. }
    destruct (hasField (fieldsPresent pr2) fieldPerReadAny) eqn:Ea.
    - apply (unmarshalPerRead_sound m a arr L C Hm Hbytes) in Hp;
        [ | apply seq_NoDup
          | intros b Hb; rewrite Hpz, repeat_length; apply in_seq in Hb; lia
          | exact HC2 ].
      destruct Hp as (-> & HC3 & W3 & Hfp & Hrid & Hpos & Hd & Hcs & Hlp
                      & _ & Hin).
      split; [reflexivity|]. split; [exact HC3|]. split; [exact W3|].
      split; [exact Hfp|]. split; [exact Hrid|]. split; [exact Hpos|].
      split; [exact Hd|]. split; [exact Hcs|].
      split; [rewrite Hlp, Hpz; reflexivity|].
      intros b Hb. rewrite Hfp.
      specialize (Hin b ltac:(apply in_seq; lia)).
      destruct (hasField (fieldsPresent pr2) (perReadBit b)); [exact Hin|].
      rewrite Hin. apply Hnil.
    - injection Hp as <- <-.
      rewrite (wirePerRead_any_unset pr2 Ea). cbn [length firstn].
      rewrite Nat.add_0_r.
      split; [reflexivity|]. split; [exact HC2|].
      repeat (split; [reflexivity|]).
      split; [rewrite Hpz; reflexivity|].
      intros b Hb. rewrite (perReadAny_unset _ _ Ea Hb). apply Hnil. }
  clear Hp.
  destruct S3 as (-> & HC3 & W3 & Hfp & Hrid & Hpos & Hd & Hcs & Hlp & Hsum).
  destruct (canonical_row pr3) as (Hwf & Hfit & Hdec);
    try first [ assumption
              | rewrite ?Hfp, ?Hrid, ?Hpos, ?Hd, ?Hcs; assumption ].
  split; [exact Hwf|]. split; [exact Hfit|]. split; [exact Hdec|].
  assert (Hwire : wireFormat pr3
                  = firstn n2 arr
                      ++ flat_map (wirePerRead pr3) (seq 0 pileup.NBase)).
  { unfold wireFormat. rewrite W2, <- app_assoc.
    assert (Hwh : wireHeader pr3 = wireHeader pr2)
      by (unfold wireHeader; now rewrite Hfp, Hrid, Hpos, Hd).
    assert (Hwc : wireCounts pr3 = wireCounts pr2)
      by (unfold wireCounts, count0, count1; now rewrite Hcs).
    now rewrite Hfp, Hwh, Hwc. }
  assert (Hn2' : length (firstn n2 arr) = n2).
  { rewrite W2, length_app, length_wireHeader. lia. }
  split.
  - rewrite Hwire at 1. rewrite length_app, Hn2'.
    rewrite firstn_plus, W3. now rewrite <- Hwire.
  - rewrite Hwire, length_app, Hn2'. exact HC3.
Qed.

(** ** Buffers of bytes *)

Lemma isU8_le32 (v : Z) : Forall isU8 (le32 v).
Proof. unfold le32. repeat constructor; apply isU8_u8. Qed.

Lemma isU8_wireFeatures (l : list perReadFeatures) :
  Forall wfFeatures l -> Forall isU8 (wireFeatures l).
Proof.
  induction 1 as [|f l (_ & _ & Hq & Hs) _ IH]; [constructor|].
  unfold wireFeatures. cbn [flat_map]. apply Forall_app. split; [|exact IH].
  unfold wireFeature.
  repeat (constructor; [first [apply isU8_u8 | assumption]|]). constructor.
Qed.

Lemma isU8_wirePerRead (pr : pileupRow) (b : nat) :
  wfRow pr -> Forall isU8 (wirePerRead pr b).
Proof.
  intros Hwf. unfold wirePerRead.
  destruct (hasField (fieldsPresent pr) (perReadBit b)); [|constructor].
  apply Forall_app. split; [apply isU8_le32|].
  apply isU8_wireFeatures, wfRow_perRead, Hwf.
Qed.

Lemma isU8_wireFormat (pr : pileupRow) :
  wfRow pr -> Forall isU8 (wireFormat pr).
Proof.
  intros Hwf. unfold wireFormat.
  apply Forall_app. split.
  { unfold wireHeader. repeat (apply Forall_app; split); apply isU8_le32. }
  apply Forall_app. split.
  { destruct (hasField (fieldsPresent pr) fieldCounts); [|constructor].
    unfold wireCounts. repeat (apply Forall_app; split); apply isU8_le32. }
  apply Forall_flat_map. apply Forall_forall. intros b _.
  now apply isU8_wirePerRead.
Qed.

Lemma unmarshal_sound (input : bytes) (r : pileupRow) (e : error) :
  Forall isU8 (bytesArray input) ->
  unmarshal input = Ok (r, e) ->
  wfRow r /\ lensFit r /\ decodedRow r = r /\
  bytesArray input
  = wireFormat r ++ skipn (length (wireFormat r)) (bytesArray input) /\
  (length (wireFormat r) <= length (bytesArray input))%nat.
Proof.
  intros Hbytes H. unfold unmarshal, bytesSlice in H.
  apply (unmarshalPileupRow_sound [bytesArray input] 0 (bytesArray input))
    in H; [|reflexivity|exact Hbytes].
  destruct H as (Hwf & Hfit & Hdec & Hw & HC).
  repeat (split; [assumption|]). split; [|lia].
  rewrite <- (firstn_skipn (length (wireFormat r)) (bytesArray input)) at 1.
  now rewrite Hw.
Qed.

(** ** What the decoder returns on any buffer *)

(** X7: on any buffer of bytes, a row the decoder returns is a value of the
    Go type in which presence and content agree: its fields are in the ranges
    of their types, its lists with a set bit have fewer than 2^32 records, its
    counts are zero when the bit of Counts is unset, and for each canonical
    base its list is nil exactly when the bit of the base is unset. *)
Theorem unmarshalPileupRow_canonical (input : bytes) (r : pileupRow) (e : error) :
  Forall isU8 (bytesArray input) ->
  unmarshal input = Ok (r, e) ->
  wfRow r /\ lensFit r /\
  (hasField (fieldsPresent r) fieldCounts = false ->
   counts (payload r) = repeat (0, 0) pileup.NBaseEnum) /\
  forall b, (b < pileup.NBase)%nat ->
    (perReadAt (payload r) b = nilFeatures
     <-> hasField (fieldsPresent r) (perReadBit b) = false).
Proof.
  intros Hbytes H.
  destruct (unmarshal_sound input r e Hbytes H) as (Hwf & Hfit & Hdec & _).
  split; [exact Hwf|]. split; [exact Hfit|]. split.
  - intros Hc. rewrite <- Hdec. unfold decodedRow. cbn [payload counts].
    now rewrite Hc.
  - intros b Hb. rewrite <- Hdec at 1. rewrite perReadAt_decodedRow by exact Hb.
    destruct (hasField (fieldsPresent r) (perReadBit b)); split;
      intros K; try reflexivity; discriminate K.
Qed.

Lemma isU8_scenarioBytes : Forall isU8 (bytesArray (mkBytes scenarioBytes [])).
Proof.
  change (bytesArray (mkBytes scenarioBytes [])) with (wireFormat scenarioRow ++ []).
  rewrite app_nil_r. apply isU8_wireFormat, wfRow_scenarioRow.
Qed.

Lemma unmarshal_scenarioBytes :
  unmarshal (mkBytes scenarioBytes []) = Ok (scenarioRow, nilError).
Proof. vm_compute. reflexivity. Qed.

Lemma unmarshalPileupRow_canonical_witness :
  Forall isU8 (bytesArray (mkBytes scenarioBytes [])) /\
  unmarshal (mkBytes scenarioBytes []) = Ok (scenarioRow, nilError) /\
  wfRow scenarioRow /\ lensFit scenarioRow /\
  (hasField (fieldsPresent scenarioRow) fieldCounts = false ->
   counts (payload scenarioRow) = repeat (0, 0) pileup.NBaseEnum) /\
  forall b, (b < pileup.NBase)%nat ->
    (perReadAt (payload scenarioRow) b = nilFeatures
     <-> hasField (fieldsPresent scenarioRow) (perReadBit b) = false).
Proof.
  split; [exact isU8_scenarioBytes|].
  split; [exact unmarshal_scenarioBytes|].
  exact (unmarshalPileupRow_canonical (mkBytes scenarioBytes []) scenarioRow
           nilError isU8_scenarioBytes unmarshal_scenarioBytes).
Defined.

(** X8: decoding then encoding gives back the bytes that were decoded.  On any
    buffer of bytes, when the decoder returns a row, the array of the buffer
    starts with the encoding of that row; so the array holds at least as many
    bytes as the length formula of the row. *)
Theorem marshal_of_unmarshal (input : bytes) (r : pileupRow) (e : error) :
  Forall isU8 (bytesArray input) ->
  unmarshal input = Ok (r, e) ->
  exists bs rest,
    marshalBytes nilBytes r = Ok bs /\
    bytesArray input = bs ++ rest /\
    Z.of_nat (length bs) = specLength r /\
    specLength r <= Z.of_nat (length (bytesArray input)).
Proof.
  intros Hbytes H.
  destruct (unmarshal_sound input r e Hbytes H) as (_ & _ & _ & Harr & Hlen).
  exists (wireFormat r), (skipn (length (wireFormat r)) (bytesArray input)).
  split; [apply marshalBytes_nil|]. split; [exact Harr|].
  split; [apply length_wireFormat|].
  rewrite <- length_wireFormat. lia.
Qed.

Lemma marshal_of_unmarshal_witness :
  Forall isU8 (bytesArray (mkBytes scenarioBytes [])) /\
  unmarshal (mkBytes scenarioBytes []) = Ok (scenarioRow, nilError) /\
  exists bs rest,
    marshalBytes nilBytes scenarioRow = Ok bs /\
    bytesArray (mkBytes scenarioBytes []) = bs ++ rest /\
    Z.of_nat (length bs) = specLength scenarioRow /\
    specLength scenarioRow <= Z.of_nat (length (bytesArray (mkBytes scenarioBytes []))).
Proof.
  split; [exact isU8_scenarioBytes|].
  split; [exact unmarshal_scenarioBytes|].
  exact (marshal_of_unmarshal (mkBytes scenarioBytes []) scenarioRow nilError
           isU8_scenarioBytes unmarshal_scenarioBytes).
Defined.

(** X9: what the decoder returns depends only on the bytes it has decoded.  On
    any buffer of bytes, when the decoder returns a row, it returns the same
    row, with a nil error, on every buffer that starts with the same bytes up
    to the length formula of that row, whatever follows them and whatever the
    spare capacity holds. *)
Theorem unmarshalPileupRow_prefix_only (input : bytes) (r : pileupRow) (e : error)
    (T H : list Z) :
  Forall isU8 (bytesArray input) ->
  unmarshal input = Ok (r, e) ->
  unmarshal (mkBytes (firstn (Z.to_nat (specLength r)) (bytesArray input) ++ T) H)
  = Ok (r, nilError).
Proof.
  intros Hbytes Hu.
  destruct (unmarshal_sound input r e Hbytes Hu) as (Hwf & Hfit & Hdec & Harr & _).
  assert (E : firstn (Z.to_nat (specLength r)) (bytesArray input) = wireFormat r).
  { rewrite <- length_wireFormat, Nat2Z.id.
    rewrite Harr, firstn_app, Nat.sub_diag, firstn_all. cbn [firstn].
    apply app_nil_r. }
  rewrite E, (unmarshal_wire r T H Hwf Hfit), Hdec. reflexivity.
Qed.

Lemma unmarshalPileupRow_prefix_only_witness :
  Forall isU8 (bytesArray (mkBytes scenarioBytes [])) /\
  unmarshal (mkBytes scenarioBytes []) = Ok (scenarioRow, nilError) /\
  unmarshal (mkBytes (firstn (Z.to_nat (specLength scenarioRow))
                        (bytesArray (mkBytes scenarioBytes [])) ++ [1; 2; 3])
               [4; 5])
  = Ok (scenarioRow, nilError).
Proof.
  split; [exact isU8_scenarioBytes|].
  split; [exact unmarshal_scenarioBytes|].
  exact (unmarshalPileupRow_prefix_only (mkBytes scenarioBytes []) scenarioRow
           nilError [1; 2; 3] [4; 5] isU8_scenarioBytes unmarshal_scenarioBytes).
Defined.

(** ** Truncated encodings *)

(** X10: every truncated encoding makes the decoder panic.  For a row whose
    fields are values of their types and whose lists with a set bit have fewer
    than 2^32 records, the decoder panics on each proper prefix of the
    encoding, held in a buffer without spare capacity: it never returns a row
    for one. *)
Theorem unmarshalPileupRow_truncated (pr : pileupRow) (bs : list Z) (n : nat) :
  wfRow pr -> lensFit pr ->
  marshalBytes nilBytes pr = Ok bs ->
  (n < length bs)%nat ->
  unmarshal (mkBytes (firstn n bs) []) = Panic.
Proof.
  intros Hwf Hfit Hbs Hn. rewrite marshalBytes_nil in Hbs.
  injection Hbs as <-.
  destruct (unmarshal (mkBytes (firstn n (wireFormat pr)) [])) as [[r e]|] eqn:E;
    [|reflexivity].
  exfalso.
  assert (Hbytes : Forall isU8 (bytesArray (mkBytes (firstn n (wireFormat pr)) []))).
  { unfold bytesArray. cbn [vis hid]. rewrite app_nil_r.
    apply Forall_firstn_keeps, isU8_wireFormat, Hwf. }
  destruct (unmarshal_sound _ r e Hbytes E) as (Hwfr & Hfitr & _ & Harr & _).
  unfold bytesArray in Harr. cbn [vis hid] in Harr. rewrite app_nil_r in Harr.
  assert (Hsplit : wireFormat pr
                   = wireFormat r
                       ++ (skipn (length (wireFormat r)) (firstn n (wireFormat pr))
                           ++ skipn n (wireFormat pr))).
  { rewrite app_assoc, <- Harr. symmetry. apply firstn_skipn. }
  destruct (wireFormat_prefix r pr _ Hwfr Hfitr Hwf Hfit Hsplit) as [Hnil _].
  apply app_eq_nil in Hnil. destruct Hnil as [_ Hnil].
  apply (f_equal (@length Z)) in Hnil. rewrite length_skipn in Hnil.
  cbn [length] in Hnil. lia.
Qed.

Lemma unmarshalPileupRow_truncated_witness :
  wfRow scenarioRow /\ lensFit scenarioRow /\
  marshalBytes nilBytes scenarioRow = Ok scenarioBytes /\
  (65 < length scenarioBytes)%nat /\
  unmarshal (mkBytes (firstn 65 scenarioBytes) []) = Panic.
Proof.
  assert (H : marshalBytes nilBytes scenarioRow = Ok scenarioBytes)
    by (vm_compute; reflexivity).
  assert (Hn : (65 < length scenarioBytes)%nat) by (vm_compute; lia).
  split; [exact wfRow_scenarioRow|].
  split; [exact lensFit_scenarioRow|].
  split; [exact H|]. split; [exact Hn|].
  exact (unmarshalPileupRow_truncated scenarioRow scenarioBytes 65
           wfRow_scenarioRow lensFit_scenarioRow H Hn).
Defined.
